(** * vapi-call-center: the transcript session manager and the relay endpoints

    A shallow embedding of
    - [src/components/voice/VoiceAgent.tsx]: [deduplicateTranscript] and the
      event handlers registered by [initializeVapi], with [startCall] and
      [endCall];
    - [src/server/index.ts]: [normalizeToE164Like], the three zod schemas and
      the three POST handlers, with the size limit of [express.json] and the
      error handler for the transcript route.

    JavaScript strings are sequences of UTF-16 code units; they are modelled
    as lists of code units so that [length], [trim], [toLowerCase] and the two
    regular expressions of the source act as they do in the engine. *)

From Stdlib Require Import QArith.
From stdpp Require Import gmap list strings.

Local Open Scope N_scope.

(* ===================================================================== *)
(** ** JavaScript strings *)
(* ===================================================================== *)

Module JS.

(** A string is a list of UTF-16 code units. *)
Abbreviation jsstring := (list N).

(** An ASCII literal of the development as a JavaScript string. *)
Definition lit (s : string) : jsstring :=
  Ascii.N_of_ascii <$> String.list_ascii_of_string s.

(** ECMAScript [WhiteSpace] and [LineTerminator] code points: what
    [String.prototype.trim] strips and what the class [\s] matches. *)
Definition isWhiteSpace (c : N) : bool :=
  ((9 <=? c) && (c <=? 13))          (* TAB LF VT FF CR *)
  || (c =? 32)                       (* SP *)
  || (c =? 160)                      (* NBSP *)
  || (c =? 5760)                     (* U+1680 *)
  || ((8192 <=? c) && (c <=? 8202))  (* U+2000 .. U+200A *)
  || (c =? 8232) || (c =? 8233)      (* LS PS *)
  || (c =? 8239) || (c =? 8287)      (* U+202F U+205F *)
  || (c =? 12288)                    (* U+3000 *)
  || (c =? 65279).                   (* U+FEFF *)

(** The class [\d] (and the complement of [\D]): ASCII digits only. *)
Definition isDigit (c : N) : bool := (48 <=? c) && (c <=? 57).

(** The class [a-z]. *)
Definition isLowerAZ (c : N) : bool := (97 <=? c) && (c <=? 122).

(** The class [A-Z]. *)
Definition isUpperAZ (c : N) : bool := (65 <=? c) && (c <=? 90).

Fixpoint trimStart (s : jsstring) : jsstring :=
  match s with
  | c :: s' => if isWhiteSpace c then trimStart s' else s
  | [] => []
  end.

Definition trimEnd (s : jsstring) : jsstring :=
  reverse (trimStart (reverse s)).

(** [s.trim()] *)
Definition trim (s : jsstring) : jsstring := trimEnd (trimStart s).

(** [s.startsWith(p)] for a one-character [p]. *)
Definition startsWithChar (p : N) (s : jsstring) : bool :=
  match s with
  | c :: _ => c =? p
  | [] => false
  end.

(** [s.replace(/\D/g, "")] *)
Definition stripNonDigits (s : jsstring) : jsstring :=
  filter (λ c, isDigit c) s.

(** [s.toLowerCase()], one code unit at a time.  ASCII capitals map to their
    small letters.  Two code units outside ASCII have a lower-case mapping
    that reaches ASCII: U+212A KELVIN SIGN maps to [k], and U+0130 maps to
    [i] followed by U+0307.  Every other code unit is left in place here:
    whatever Unicode maps it to is again outside ASCII and is not white
    space, so that the regular expression applied next by
    [deduplicateTranscript] deletes the original and the mapped character
    alike. *)
Definition lowerUnit (c : N) : jsstring :=
  if isUpperAZ c then [c + 32]
  else if c =? 8490 then [107]
  else if c =? 304 then [105; 775]
  else [c].

Definition toLowerCase (s : jsstring) : jsstring := s ≫= lowerUnit.

(** The class [[^a-z0-9\s]] is the complement of this one. *)
Definition isAZ09Space (c : N) : bool :=
  isLowerAZ c || isDigit c || isWhiteSpace c.

(** [s.replace(/[^a-z0-9\s]/g, '')] *)
Definition stripNonAZ09Space (s : jsstring) : jsstring :=
  filter (λ c, isAZ09Space c) s.

(** Truthiness of a string: [!s] holds for the empty string only. *)
Definition falsy (s : jsstring) : bool :=
  match s with [] => true | _ => false end.

End JS.

Import JS.

(* ===================================================================== *)
(** ** server/index.ts: phone normalisation *)
(* ===================================================================== *)

(** [normalizeToE164Like(input, defaultCountryCode)]; [None] is [null]. *)
Definition normalizeToE164Like (input : jsstring) (defaultCountryCode : jsstring)
  : option jsstring :=
  let raw := trim input in
  if falsy raw then None
  else if startsWithChar 43 raw then
    let digits := stripNonDigits raw in
    if falsy digits then None else Some (43 :: digits)
  else
    let digits := stripNonDigits raw in
    if (length digits =? 11)%nat && startsWithChar 49 digits then Some (43 :: digits)
    else if (length digits =? 10)%nat then Some (43 :: defaultCountryCode ++ digits)
    else if (7 <=? length digits)%nat && (length digits <=? 15)%nat then Some (43 :: digits)
    else None.

(** The default value of the second parameter. *)
Definition defaultCountryCode : jsstring := lit "1".

(* ===================================================================== *)
(** ** VoiceAgent.tsx: transcript messages and deduplication *)
(* ===================================================================== *)

Record TranscriptMessage := mkMessage {
  role : jsstring;
  text : jsstring;
  timestamp : Z;
}.

(** [message.text.toLowerCase().replace(/[^a-z0-9\s]/g, '').trim()] *)
Definition normalizedText (t : jsstring) : jsstring :=
  trim (stripNonAZ09Space (toLowerCase t)).

(** The template literal [`${message.role}|${normalizedText}`]. *)
Definition dedupKey (message : TranscriptMessage) : jsstring :=
  role message ++ 124 :: normalizedText (text message).

(** One iteration of the [for ... of] loop over the pair
    [(seenKeys, uniqueMessages)]. *)
Definition dedupStep (acc : gset jsstring * list TranscriptMessage)
    (message : TranscriptMessage) : gset jsstring * list TranscriptMessage :=
  let key := dedupKey message in
  if decide (key ∈ acc.1) then acc
  else ({[key]} ∪ acc.1, acc.2 ++ [message]).

Definition deduplicateTranscript (messages : list TranscriptMessage)
  : list TranscriptMessage :=
  (foldl dedupStep (∅, []) messages).2.

(** *** The filter as the specification words it

    A message is kept when its key [(role, normalizedText)] has not occurred
    at an earlier position; the normalised text is the lower-cased text
    without the characters that are not an ASCII letter, a digit or white
    space, trimmed. *)
Definition isAsciiLetter (c : N) : bool := isLowerAZ c || isUpperAZ c.

Definition specNormalizedText (t : jsstring) : jsstring :=
  trim (filter (λ c, isAsciiLetter c || isDigit c || isWhiteSpace c)
               (toLowerCase t)).

Definition specKey (m : TranscriptMessage) : jsstring * jsstring :=
  (role m, specNormalizedText (text m)).

(** Is the key of [m], which stands at position [i] of [l], absent from the
    positions before [i]? *)
Definition firstOccurrence {A K} `{EqDecision K} (key : A → K)
    (l : list A) (i : nat) (m : A) : bool :=
  bool_decide (key m ∉ key <$> take i l).

Definition keepFirstOccurrences {A K} `{EqDecision K} (key : A → K)
    (l : list A) : list A :=
  omap id (imap (λ i m, if firstOccurrence key l i m then Some m else None) l).

(* ===================================================================== *)
(** ** VoiceAgent.tsx: the session state and its handlers *)
(* ===================================================================== *)

(** [type VapiMessage = { type: string; role?: string; transcript?: string }] *)
Record VapiMessage := mkVapiMessage {
  msg_type : jsstring;
  msg_role : option jsstring;
  msg_transcript : option jsstring;
}.

(** The body of the POST issued at call end. *)
Record TranscriptPayload := mkPayload {
  payload_transcript : list TranscriptMessage;
  payload_startedAt : option Z;
  payload_endedAt : Z;
  payload_assistantId : jsstring;
}.

(** What a handler asks of the outside world. *)
Inductive Effect :=
  | PostTranscripts (payload : TranscriptPayload)  (* fetch("/api/transcripts") *)
  | SetTimeout (ms : Z)                            (* the end-of-call overlay timer *)
  | TransportStart (assistant : jsstring)          (* vapi.start(assistantId) *)
  | TransportStop.                                 (* vapi.stop() *)

(** The component state: the [useState] cells, the refs, and the effects
    issued so far.  [vapi] records whether the state cell holds an instance.
    [transcriptRef] is [transcriptRef.current]: the handlers write the state
    cell [transcript], and the ref follows it only when the effect that
    copies it has run, after a render.  [messageTimeoutRef.current] is never
    assigned by the component and stays [null]. *)
Record Session := mkSession {
  vapi : bool;
  isConnected : bool;
  isSpeaking : bool;
  isListening : bool;
  transcript : list TranscriptMessage;
  transcriptRef : list TranscriptMessage;
  error : option jsstring;
  callEnded : bool;
  callStartedAtRef : option Z;
  effects : list Effect;
}.

Definition errConnecting : jsstring :=
  lit "Error connecting to voice assistant. Please try again.".
Definition errInitialize : jsstring :=
  lit "Failed to initialize voice assistant.".
Definition errStart : jsstring :=
  lit "Failed to start voice call. Please check your permissions.".

(** The state after mount; [ready] tells whether [new Vapi(apiKey)] returned. *)
Definition initialSession (ready : bool) : Session :=
  {| vapi := ready; isConnected := false; isSpeaking := false;
     isListening := false; transcript := []; transcriptRef := [];
     error :=
       if ready then None else Some errInitialize;
     callEnded := false; callStartedAtRef := None; effects := [] |}.

(** The updater passed to [setTranscript] by the message handler.  The two
    readings of [Date.now()] are [nowCheck] (in the condition) and [nowStamp]
    (in the message that is stored).  [prev[prev.length - 1]] is [last prev],
    which is [undefined] for the empty array; the assignment at index
    [length - 1] is within range whenever it is reached. *)
Definition mergeFragment (r t : jsstring) (nowCheck nowStamp : Z)
    (prev : list TranscriptMessage) : list TranscriptMessage :=
  match last prev with
  | Some lastMessage =>
      if bool_decide (role lastMessage = r)
         && (nowCheck - timestamp lastMessage <? 3000)%Z
      then <[pred (length prev) :=
               {| role := role lastMessage; text := t; timestamp := nowStamp |}]> prev
      else prev ++ [ {| role := r; text := t; timestamp := nowStamp |} ]
  | None => prev ++ [ {| role := r; text := t; timestamp := nowStamp |} ]
  end.

(** [vapiInstance.on("message", ...)] *)
Definition onMessage (message : VapiMessage) (nowCheck nowStamp : Z)
    (st : Session) : Session :=
  if bool_decide (msg_type message = lit "transcript") then
    let r := default [] (msg_role message) in
    let t := trim (default [] (msg_transcript message)) in
    if falsy t then st
    else
      {| vapi := vapi st; isConnected := isConnected st;
         isSpeaking := isSpeaking st; isListening := isListening st;
         transcript := mergeFragment r t nowCheck nowStamp (transcript st);
         transcriptRef := transcriptRef st;
         error := error st; callEnded := callEnded st;
         callStartedAtRef := callStartedAtRef st; effects := effects st |}
  else st.

(** [vapiInstance.on("call-start", ...)] *)
Definition onCallStart (now : Z) (st : Session) : Session :=
  {| vapi := vapi st; isConnected := true;
     isSpeaking := isSpeaking st; isListening := isListening st;
     transcript := transcript st; transcriptRef := transcriptRef st;
     error := None; callEnded := false;
     callStartedAtRef := Some now; effects := effects st |}.

(** [vapiInstance.on("call-end", ...)] *)
Definition onCallEnd (assistantId : jsstring) (now : Z) (st : Session) : Session :=
  let finalTranscript := deduplicateTranscript (transcriptRef st) in
  let payload :=
    {| payload_transcript := finalTranscript;
       payload_startedAt := callStartedAtRef st;
       payload_endedAt := now;
       payload_assistantId := assistantId |} in
  {| vapi := vapi st; isConnected := false;
     isSpeaking := false; isListening := false;
     transcript := transcript st; transcriptRef := transcriptRef st;
     error := error st; callEnded := true;
     callStartedAtRef := None;
     effects := effects st ++ [PostTranscripts payload; SetTimeout 3000] |}.

(** [vapiInstance.on("speech-start", ...)] *)
Definition onSpeechStart (st : Session) : Session :=
  {| vapi := vapi st; isConnected := isConnected st;
     isSpeaking := true; isListening := false;
     transcript := transcript st; transcriptRef := transcriptRef st;
     error := error st; callEnded := callEnded st;
     callStartedAtRef := callStartedAtRef st; effects := effects st |}.

(** [vapiInstance.on("speech-end", ...)] *)
Definition onSpeechEnd (st : Session) : Session :=
  {| vapi := vapi st; isConnected := isConnected st;
     isSpeaking := false; isListening := true;
     transcript := transcript st; transcriptRef := transcriptRef st;
     error := error st; callEnded := callEnded st;
     callStartedAtRef := callStartedAtRef st; effects := effects st |}.

(** [vapiInstance.on("error", ...)] *)
Definition onError (st : Session) : Session :=
  {| vapi := vapi st; isConnected := isConnected st;
     isSpeaking := isSpeaking st; isListening := isListening st;
     transcript := transcript st; transcriptRef := transcriptRef st;
     error := Some errConnecting;
     callEnded := callEnded st;
     callStartedAtRef := callStartedAtRef st; effects := effects st |}.

(** The callback of the timer set at call end. *)
Definition onEndTimeout (st : Session) : Session :=
  {| vapi := vapi st; isConnected := isConnected st;
     isSpeaking := isSpeaking st; isListening := isListening st;
     transcript := transcript st; transcriptRef := transcriptRef st;
     error := error st; callEnded := false;
     callStartedAtRef := callStartedAtRef st;
     effects := effects st ++ [TransportStop] |}.

(** [startCall], up to its [await]: the guard, the two resets and the call of
    [vapi.start]. *)
Definition startCall (assistantId : jsstring) (st : Session) : Session :=
  if negb (vapi st) then st
  else
    {| vapi := vapi st; isConnected := isConnected st;
       isSpeaking := isSpeaking st; isListening := isListening st;
       transcript := []; transcriptRef := transcriptRef st;
       error := None; callEnded := callEnded st;
       callStartedAtRef := callStartedAtRef st;
       effects := effects st ++ [TransportStart assistantId] |}.

(** [startCall], from its [await] on: [setIsListening(true)] when the promise
    of [vapi.start] is fulfilled, the [catch] block when it is rejected.  The
    continuation exists only if the guard was passed. *)
Definition startCallSettled (fulfilled : bool) (st : Session) : Session :=
  if negb (vapi st) then st
  else if fulfilled then
    {| vapi := vapi st; isConnected := isConnected st;
       isSpeaking := isSpeaking st; isListening := true;
       transcript := transcript st; transcriptRef := transcriptRef st;
       error := error st; callEnded := callEnded st;
       callStartedAtRef := callStartedAtRef st; effects := effects st |}
  else
    {| vapi := vapi st; isConnected := isConnected st;
       isSpeaking := isSpeaking st; isListening := isListening st;
       transcript := transcript st; transcriptRef := transcriptRef st;
       error := Some errStart;
       callEnded := callEnded st;
       callStartedAtRef := callStartedAtRef st; effects := effects st |}.

(** [endCall]: the guard and [vapi.stop()]; a rejection is swallowed, so the
    outcome of the promise changes nothing. *)
Definition endCall (st : Session) : Session :=
  if negb (vapi st) then st
  else
    {| vapi := vapi st; isConnected := isConnected st;
       isSpeaking := isSpeaking st; isListening := isListening st;
       transcript := transcript st; transcriptRef := transcriptRef st;
       error := error st; callEnded := callEnded st;
       callStartedAtRef := callStartedAtRef st;
       effects := effects st ++ [TransportStop] |}.

(** The effect [transcriptRef.current = transcript], which React runs after
    it has rendered a change of [transcript]. *)
Definition onRender (st : Session) : Session :=
  {| vapi := vapi st; isConnected := isConnected st;
     isSpeaking := isSpeaking st; isListening := isListening st;
     transcript := transcript st; transcriptRef := transcript st;
     error := error st; callEnded := callEnded st;
     callStartedAtRef := callStartedAtRef st; effects := effects st |}.

(** What the event loop delivers to the component, one at a time; [Render]
    is React committing a render and running the effect above. *)
Inductive Event :=
  | CallStart (now : Z)
  | CallEnd (now : Z)
  | SpeechStart
  | SpeechEnd
  | Message (message : VapiMessage) (nowCheck nowStamp : Z)
  | VapiError
  | StartCall
  | StartCallSettled (fulfilled : bool)
  | EndCall
  | EndTimeout
  | Render.

Definition handle (assistantId : jsstring) (st : Session) (ev : Event) : Session :=
  match ev with
  | CallStart now => onCallStart now st
  | CallEnd now => onCallEnd assistantId now st
  | SpeechStart => onSpeechStart st
  | SpeechEnd => onSpeechEnd st
  | Message m nowCheck nowStamp => onMessage m nowCheck nowStamp st
  | VapiError => onError st
  | StartCall => startCall assistantId st
  | StartCallSettled fulfilled => startCallSettled fulfilled st
  | EndCall => endCall st
  | EndTimeout => onEndTimeout st
  | Render => onRender st
  end.

(** Events are processed in delivery order. *)
Definition run (assistantId : jsstring) (st : Session) (evs : list Event) : Session :=
  foldl (handle assistantId) st evs.

(** *** Runs of fragments

    A transcript fragment as the platform delivers it: the raw text and the
    two clock readings taken while it is handled. *)
Record Fragment := mkFragment {
  frag_text : jsstring;
  frag_check : Z;
  frag_stamp : Z;
}.

(** The [message] event that carries fragment [f] for the speaker [r]. *)
Definition fragmentEvent (r : jsstring) (f : Fragment) : Event :=
  Message (mkVapiMessage (lit "transcript") (Some r) (Some (frag_text f)))
          (frag_check f) (frag_stamp f).

(** Every fragment is handled less than 3000 ms after the previous update,
    the first of them after [prevStamp]. *)
Fixpoint withinWindow (prevStamp : Z) (fs : list Fragment) : Prop :=
  match fs with
  | [] => True
  | f :: fs' => (frag_check f - prevStamp < 3000)%Z ∧ withinWindow (frag_stamp f) fs'
  end.

(** The text of a fragment is not blank. *)
Definition spoken (f : Fragment) : Prop := trim (frag_text f) ≠ [].

(** *** The activity flags *)

(** [isSpeaking] and [isListening] are not both set. *)
Definition exclusive (st : Session) : Prop :=
  isSpeaking st && isListening st = false.

(** Along the trace [evs], run from [st], every [vapi.start] that is
    fulfilled is fulfilled while [isSpeaking] is unset. *)
Fixpoint startsWhileSilent (a : jsstring) (st : Session) (evs : list Event) : Prop :=
  match evs with
  | [] => True
  | ev :: evs' =>
      (ev = StartCallSettled true → isSpeaking st = false)
      ∧ startsWhileSilent a (handle a st ev) evs'
  end.

(* ===================================================================== *)
(** ** server/index.ts: request bodies and the zod schemas *)
(* ===================================================================== *)

Module Server.

(** A number as [JSON.parse] can return it: a finite double, which is an
    exact rational; negative zero; or an infinity, which is what a literal
    beyond the range of doubles, such as [1e400], is read as.  No JSON text
    is read as [NaN]. *)
Inductive jsnumber :=
  | Finite (q : Q)
  | NegZero
  | Infinity (negative : bool).

(** A parsed JSON value, as [express.json()] leaves it in [req.body].  An
    object is the list of its properties; a property that is absent reads
    as [undefined]. *)
#[warnings="-register-all"]
Inductive json :=
  | JNull
  | JBool (b : bool)
  | JNum (n : jsnumber)
  | JStr (s : jsstring)
  | JArr (items : list json)
  | JObj (fields : list (jsstring * json)).

(** [obj[k]]: [None] is [undefined]. *)
Fixpoint getField (k : jsstring) (fields : list (jsstring * json)) : option json :=
  match fields with
  | [] => None
  | (k', v) :: rest => if decide (k' = k) then Some v else getField k rest
  end.

(** *** zod *)

Inductive IssueCode := invalid_type | too_small.

Inductive PathSeg := Key (k : jsstring) | Index (i : nat).

Record ZodIssue := mkIssue { issue_code : IssueCode; issue_path : list PathSeg }.

(** The result of [schema.safeParse]: [{success: true, data}] or
    [{success: false, error}], the error being its list of issues. *)
Inductive SafeParse (A : Type) :=
  | ParseOk (data : A)
  | ParseErr (issues : list ZodIssue).
Arguments ParseOk {A} data.
Arguments ParseErr {A} issues.

Definition success {A} (r : SafeParse A) : bool :=
  match r with ParseOk _ => true | ParseErr _ => false end.

Definition parseMap {A B} (f : A → B) (r : SafeParse A) : SafeParse B :=
  match r with ParseOk a => ParseOk (f a) | ParseErr e => ParseErr e end.

(** zod does not stop at the first invalid property: the issues of all
    properties are collected. *)
Definition parseBoth {A B} (ra : SafeParse A) (rb : SafeParse B) : SafeParse (A * B) :=
  match ra, rb with
  | ParseOk a, ParseOk b => ParseOk (a, b)
  | ParseErr e1, ParseErr e2 => ParseErr (e1 ++ e2)
  | ParseErr e1, ParseOk _ => ParseErr e1
  | ParseOk _, ParseErr e2 => ParseErr e2
  end.

Fixpoint parseAll {A} (rs : list (SafeParse A)) : SafeParse (list A) :=
  match rs with
  | [] => ParseOk []
  | r :: rs' => parseMap (λ p, p.1 :: p.2) (parseBoth r (parseAll rs'))
  end.

Declare Scope parse_scope.
Delimit Scope parse_scope with parse.
Notation "ra <&> rb" := (parseBoth ra rb) (at level 61, left associativity) : parse_scope.
Local Open Scope parse_scope.

(** A schema reads the value found at a path; [None] is [undefined]. *)
Definition Schema (A : Type) := list PathSeg → option json → SafeParse A.

(** [z.string().min(n)] *)
Definition zStringMin (n : nat) : Schema jsstring := λ path v,
  match v with
  | Some (JStr s) =>
      if (n <=? length s)%nat then ParseOk s
      else ParseErr [mkIssue too_small path]
  | _ => ParseErr [mkIssue invalid_type path]
  end.

(** [z.string()] *)
Definition zString : Schema jsstring := zStringMin 0.

(** [z.number()]: any number but [NaN]; the infinities are accepted, for the
    schema does not ask for [finite()]. *)
Definition zNumber : Schema jsnumber := λ path v,
  match v with
  | Some (JNum q) => ParseOk q
  | _ => ParseErr [mkIssue invalid_type path]
  end.

(** [schema.optional()] *)
Definition zOptional {A} (schema : Schema A) : Schema (option A) := λ path v,
  match v with
  | None => ParseOk None
  | Some _ => parseMap Some (schema path v)
  end.

(** [schema.default(d)] *)
Definition zDefault {A} (schema : Schema A) (d : json) : Schema A := λ path v,
  match v with
  | None => schema path (Some d)
  | Some _ => schema path v
  end.

(** The properties that zod copies into the object it returns for a record:
    all but one named [__proto__], which it skips (and which a plain
    assignment would not create as a property either). *)
Definition copied (fields : list (jsstring * json)) : list (jsstring * json) :=
  filter (λ kv, kv.1 ≠ lit "__proto__") fields.

(** [z.record(z.any())]: any object; the values are not looked at. *)
Definition zRecordAny : Schema (list (jsstring * json)) := λ path v,
  match v with
  | Some (JObj fields) => ParseOk (copied fields)
  | _ => ParseErr [mkIssue invalid_type path]
  end.

(** [z.array(elem).min(n)]: the length issue and the issues of the elements
    are reported together. *)
Definition zArrayMin {A} (elem : Schema A) (n : nat) : Schema (list A) := λ path v,
  match v with
  | Some (JArr items) =>
      let tooSmall : SafeParse unit :=
        if (n <=? length items)%nat then ParseOk ()
        else ParseErr [mkIssue too_small path] in
      let elems :=
        parseAll (imap (λ i x, elem (path ++ [Index i]) (Some x)) items) in
      parseMap snd (tooSmall <&> elems)
  | _ => ParseErr [mkIssue invalid_type path]
  end.

(** [z.object({...})] on something that is not an object. *)
Definition notAnObject {A} (path : list PathSeg) : SafeParse A :=
  ParseErr [mkIssue invalid_type path].

(** The property [k] of an object schema: the value under [k], read at the
    path extended by [k]. *)
Definition prop {A} (schema : Schema A) (k : string)
    (path : list PathSeg) (fields : list (jsstring * json)) : SafeParse A :=
  schema (path ++ [Key (lit k)]) (getField (lit k) fields).

(** *** The parsed payloads

    An object schema returns a fresh object that holds the properties named
    in its shape and no other (zod strips unrecognised keys unless the schema
    is declared [strict] or [passthrough], which none of the three is). *)

Record Customer := mkCustomer {
  number : jsstring;
  name : option jsstring;
}.

Record OutboundCall := mkOutboundCall {
  phoneNumberId : jsstring;
  assistantId : jsstring;
  customer : Customer;
}.

Record OutboundCampaign := mkOutboundCampaign {
  campaign_phoneNumberId : jsstring;
  campaign_assistantId : jsstring;
  campaign_name : jsstring;
  campaign_customer : Customer;
}.

Record ForwardedMessage := mkForwardedMessage {
  fwd_role : jsstring;
  fwd_text : jsstring;
  fwd_timestamp : jsnumber;
}.

Record TranscriptForward := mkTranscriptForward {
  callId : option jsstring;
  fwd_assistantId : option jsstring;
  startedAt : option jsnumber;
  endedAt : option jsnumber;
  transcript : list ForwardedMessage;
  metadata : option (list (jsstring * json));
}.

(** The [customer] object of both outbound schemas. *)
Definition CustomerSchema : Schema Customer := λ path v,
  match v with
  | Some (JObj fields) =>
      parseMap (λ '(number, name), mkCustomer number name)
        (prop (zStringMin 7) "number" path fields
         <&> prop (zOptional zString) "name" path fields)
  | _ => notAnObject path
  end.

Definition OutboundCallSchema : Schema OutboundCall := λ path v,
  match v with
  | Some (JObj fields) =>
      parseMap (λ '(phoneNumberId, assistantId, customer),
                  mkOutboundCall phoneNumberId assistantId customer)
        (prop (zStringMin 1) "phoneNumberId" path fields
         <&> prop (zStringMin 1) "assistantId" path fields
         <&> prop CustomerSchema "customer" path fields)
  | _ => notAnObject path
  end.

Definition OutboundCampaignSchema : Schema OutboundCampaign := λ path v,
  match v with
  | Some (JObj fields) =>
      parseMap (λ '(phoneNumberId, assistantId, name, customer),
                  mkOutboundCampaign phoneNumberId assistantId name customer)
        (prop (zStringMin 1) "phoneNumberId" path fields
         <&> prop (zStringMin 1) "assistantId" path fields
         <&> prop (zDefault (zStringMin 1) (JStr (lit "Web Campaign"))) "name" path fields
         <&> prop CustomerSchema "customer" path fields)
  | _ => notAnObject path
  end.

Definition ForwardedMessageSchema : Schema ForwardedMessage := λ path v,
  match v with
  | Some (JObj fields) =>
      parseMap (λ '(role, text, timestamp), mkForwardedMessage role text timestamp)
        (prop (zStringMin 1) "role" path fields
         <&> prop (zStringMin 1) "text" path fields
         <&> prop zNumber "timestamp" path fields)
  | _ => notAnObject path
  end.

Definition TranscriptForwardSchema : Schema TranscriptForward := λ path v,
  match v with
  | Some (JObj fields) =>
      parseMap (λ '(callId, assistantId, startedAt, endedAt, transcript, metadata),
                  mkTranscriptForward callId assistantId startedAt endedAt
                                      transcript metadata)
        (prop (zOptional zString) "callId" path fields
         <&> prop (zOptional zString) "assistantId" path fields
         <&> prop (zOptional zNumber) "startedAt" path fields
         <&> prop (zOptional zNumber) "endedAt" path fields
         <&> prop (zArrayMin ForwardedMessageSchema 1) "transcript" path fields
         <&> prop (zOptional zRecordAny) "metadata" path fields)
  | _ => notAnObject path
  end.

(** [schema.safeParse(req.body)] *)
Definition safeParse {A} (schema : Schema A) (body : json) : SafeParse A :=
  schema [] (Some body).

(** *** The process environment and the remote services *)

Record Env := mkEnv {
  VAPI_API_KEY : option jsstring;
  N8N_WEBHOOK_URL : option jsstring;
}.

(** [!VAPI_API_KEY] *)
Definition keyMissing (env : Env) : bool :=
  match VAPI_API_KEY env with
  | None => true
  | Some k => falsy k
  end.

(** How an awaited promise is settled. *)
Inductive Outcome (A : Type) :=
  | Fulfilled (value : A)
  | Rejected.
Arguments Fulfilled {A} value.
Arguments Rejected {A}.

(** [type VapiCallsCreateResponse =
       | { id: string }
       | { results?: Array<{ id: string }>; errors?: unknown[] }] *)
Inductive VapiCallsCreateResponse :=
  | SingleCall (id : jsstring)
  | BatchCalls (results : option (list jsstring)) (errors : option (list json)).

(** ["id" in callResponse ? callResponse.id : callResponse.results?.[0]?.id] *)
Definition callIdOf (callResponse : VapiCallsCreateResponse) : option jsstring :=
  match callResponse with
  | SingleCall id => Some id
  | BatchCalls results _ => results ≫= head
  end.

(** The campaign returned by the platform, of which the handler reads [id]. *)
Record Campaign := mkCampaign {
  campaign_id : jsstring;
  campaign_rest : list (jsstring * json);
}.

(** The argument of [vapi.campaigns.campaignControllerCreate]. *)
Record CampaignCreate := mkCampaignCreate {
  create_name : jsstring;
  create_phoneNumberId : jsstring;
  create_assistantId : jsstring;
  create_customers : list Customer;
}.

(** The response object of [node-fetch]: [ok], [status], and the outcome of
    [await response.text()]. *)
Record FetchResponse := mkFetchResponse {
  ok : bool;
  fetch_status : Z;
  fetch_text : Outcome jsstring;
}.

(** A call of [fetch(N8N_WEBHOOK_URL, {method: "POST", ..., body})]; the body
    is the JSON value that the text sent denotes. *)
Record FetchRequest := mkFetchRequest {
  fetch_url : option jsstring;
  fetch_body : json;
}.

(** *** Responses *)

Inductive ResBody :=
  | ErrorBody (error : jsstring)                                (* { error } *)
  | InvalidBody (error : jsstring) (details : list ZodIssue)    (* { error, details } *)
  | OkBody                                                      (* { ok: true } *)
  | CallBody (id : option jsstring) (call : VapiCallsCreateResponse)  (* { id, call } *)
  | CampaignBody (id : jsstring) (campaign : Campaign).         (* { id, campaign } *)

Record Response := mkResponse {
  status : Z;
  resBody : ResBody;
}.

(** [res.status(n).json(b)] *)
Definition respond (n : Z) (b : ResBody) : Response := mkResponse n b.

(** *** [app.post("/api/vapi/outbound-call")]

    The handler returns its response and the requests it sent upstream. *)
Definition outboundCall (env : Env)
    (callsCreate : OutboundCall → Outcome VapiCallsCreateResponse)
    (body : json) : Response * list OutboundCall :=
  if keyMissing env then
    (respond 500 (ErrorBody (lit "Server not configured for Vapi")), [])
  else
    match safeParse OutboundCallSchema body with
    | ParseErr issues =>
        (respond 400 (InvalidBody (lit "Invalid payload") issues), [])
    | ParseOk data =>
        match normalizeToE164Like (number (customer data)) defaultCountryCode with
        | None =>
            (respond 400 (ErrorBody (lit "Invalid customer number")), [])
        | Some sanitizedNumber =>
            if falsy sanitizedNumber then
              (respond 400 (ErrorBody (lit "Invalid customer number")), [])
            else
              let request :=
                {| phoneNumberId := phoneNumberId data;
                   assistantId := assistantId data;
                   customer := {| number := sanitizedNumber;
                                  name := name (customer data) |} |} in
              match callsCreate request with
              | Fulfilled callResponse =>
                  (respond 201 (CallBody (callIdOf callResponse) callResponse),
                   [request])
              | Rejected =>
                  (respond 502 (ErrorBody (lit "Failed to create call")), [request])
              end
        end
    end.

(** *** [app.post("/api/vapi/outbound-campaign")] *)
Definition outboundCampaign (env : Env)
    (campaignControllerCreate : CampaignCreate → Outcome Campaign)
    (body : json) : Response * list CampaignCreate :=
  if keyMissing env then
    (respond 500 (ErrorBody (lit "Server not configured for Vapi")), [])
  else
    match safeParse OutboundCampaignSchema body with
    | ParseErr issues =>
        (respond 400 (InvalidBody (lit "Invalid payload") issues), [])
    | ParseOk data =>
        match normalizeToE164Like (number (campaign_customer data))
                                  defaultCountryCode with
        | None =>
            (respond 400 (ErrorBody (lit "Invalid customer number")), [])
        | Some sanitizedNumber =>
            if falsy sanitizedNumber then
              (respond 400 (ErrorBody (lit "Invalid customer number")), [])
            else
              let request :=
                {| create_name := campaign_name data;
                   create_phoneNumberId := campaign_phoneNumberId data;
                   create_assistantId := campaign_assistantId data;
                   create_customers :=
                     [ {| number := sanitizedNumber;
                          name := name (campaign_customer data) |} ] |} in
              match campaignControllerCreate request with
              | Fulfilled campaign =>
                  (respond 201 (CampaignBody (campaign_id campaign) campaign),
                   [request])
              | Rejected =>
                  (respond 502 (ErrorBody (lit "Failed to create campaign")),
                   [request])
              end
        end
    end.

(** *** [app.post("/api/transcripts")] *)

(** A property that is [undefined] is left out by [JSON.stringify]. *)
Definition optField {A} (k : string) (f : A → json) (v : option A)
  : list (jsstring * json) :=
  match v with
  | Some x => [(lit k, f x)]
  | None => []
  end.

(** How [JSON.stringify] writes a number, as the value that the text
    denotes: a finite number as itself, negative zero as [0], an infinity as
    [null]. *)
Definition writeNumber (n : jsnumber) : json :=
  match n with
  | Finite q => JNum (Finite q)
  | NegZero => JNum (Finite 0)
  | Infinity _ => JNull
  end.

(** A value as [JSON.stringify] writes it: the numbers as above, at every
    depth, and the rest as it is. *)
Fixpoint written (j : json) : json :=
  match j with
  | JNum n => writeNumber n
  | JArr items => JArr (written <$> items)
  | JObj fields => JObj (prod_map id written <$> fields)
  | _ => j
  end.

Definition messageToJSON (m : ForwardedMessage) : json :=
  JObj [ (lit "role", JStr (fwd_role m));
         (lit "text", JStr (fwd_text m));
         (lit "timestamp", writeNumber (fwd_timestamp m)) ].

(** [parsed.data] as the JSON value that [JSON.stringify(payload)] writes:
    the properties of the schema, in the order of its shape. *)
Definition payloadToJSON (payload : TranscriptForward) : json :=
  JObj (optField "callId" JStr (callId payload)
        ++ optField "assistantId" JStr (fwd_assistantId payload)
        ++ optField "startedAt" writeNumber (startedAt payload)
        ++ optField "endedAt" writeNumber (endedAt payload)
        ++ [ (lit "transcript", JArr (messageToJSON <$> transcript payload)) ]
        ++ optField "metadata" (λ o, written (JObj o)) (metadata payload)).

Definition postTranscripts (env : Env)
    (fetch : FetchRequest → Outcome FetchResponse)
    (body : json) : Response * list FetchRequest :=
  match safeParse TranscriptForwardSchema body with
  | ParseErr issues =>
      (respond 400 (InvalidBody (lit "Invalid payload") issues), [])
  | ParseOk payload =>
      if (2000 <? length (transcript payload))%nat then
        (respond 413 (ErrorBody (lit "Transcript too large")), [])
      else
        let request :=
          {| fetch_url := N8N_WEBHOOK_URL env;
             fetch_body := payloadToJSON payload |} in
        match fetch request with
        | Fulfilled response =>
            match fetch_text response with
            | Fulfilled _ =>
                if negb (ok response) then
                  (respond 502 (ErrorBody (lit "Failed to forward transcript")),
                   [request])
                else (respond 200 OkBody, [request])
            | Rejected =>
                (respond 502 (ErrorBody (lit "Failed to forward transcript")),
                 [request])
            end
        | Rejected =>
            (respond 502 (ErrorBody (lit "Failed to forward transcript")),
             [request])
        end
  end.

(** *** A request body cut down to the schema

    What is left of an object when only the properties that the schema names
    are kept, in the order of its shape: at top level, and in every element
    of [transcript]; of [metadata], the properties that zod copies. *)
Definition pick (k : string) (fields : list (jsstring * json))
  : list (jsstring * json) :=
  optField k id (getField (lit k) fields).

Definition restrictMessage (x : json) : json :=
  match x with
  | JObj fields =>
      JObj (pick "role" fields ++ pick "text" fields ++ pick "timestamp" fields)
  | _ => x
  end.

Definition restrictToSchema (body : json) : json :=
  match body with
  | JObj fields =>
      JObj (pick "callId" fields
            ++ pick "assistantId" fields
            ++ pick "startedAt" fields
            ++ pick "endedAt" fields
            ++ match getField (lit "transcript") fields with
               | Some (JArr items) =>
                   [ (lit "transcript", JArr (restrictMessage <$> items)) ]
               | other => optField "transcript" id other
               end
            ++ match getField (lit "metadata") fields with
               | Some (JObj o) => [ (lit "metadata", JObj (copied o)) ]
               | other => optField "metadata" id other
               end)
  | _ => body
  end.

(** *** The middlewares around the handler

    [const NODE_ENV = process.env.NODE_ENV || "development"] *)
Definition NODE_ENV (nodeEnv : option jsstring) : jsstring :=
  match nodeEnv with
  | Some s => if falsy s then lit "development" else s
  | None => lit "development"
  end.

(** The error-handling middleware, last in the chain: whatever the error, the
    answer is 500, with the message of the error in development only. *)
Definition errorHandler (nodeEnv : option jsstring) (message : jsstring)
  : Response * list FetchRequest :=
  (respond 500
     (ErrorBody (if decide (NODE_ENV nodeEnv = lit "development") then message
                 else lit "Internal Server Error")),
   []).

(** [express.json({ limit: "1mb" })]: the number of bytes that the request
    entity may have. *)
Definition bodyLimit : N := 1048576.

(** A POST to [/api/transcripts] with a JSON entity of [entityLength] bytes
    that is read as [body].  An entity beyond the limit is refused by
    [express.json], which passes its error on to the error handler; the
    route is not entered. *)
Definition transcriptsRoute (nodeEnv : option jsstring) (env : Env)
    (fetch : FetchRequest → Outcome FetchResponse)
    (entityLength : N) (body : json) : Response * list FetchRequest :=
  if bodyLimit <? entityLength then
    errorHandler nodeEnv (lit "request entity too large")
  else postTranscripts env fetch body.

End Server.

(* ===================================================================== *)
(** ** Notions used to state further properties *)
(* ===================================================================== *)

(** Neighbouring messages of one speaker are 3000 ms apart or more. *)
Definition wellSpaced (tr : list TranscriptMessage) : Prop :=
  ∀ i m1 m2,
    tr !! i = Some m1 → tr !! S i = Some m2 →
    role m1 = role m2 → (3000 ≤ timestamp m2 - timestamp m1)%Z.

(** The readings of [Date.now()] taken along a trace never go back; [t] is
    the reading before the trace. *)
Fixpoint monotoneClock (t : Z) (evs : list Event) : Prop :=
  match evs with
  | [] => True
  | CallStart now :: evs' => (t ≤ now)%Z ∧ monotoneClock now evs'
  | CallEnd now :: evs' => (t ≤ now)%Z ∧ monotoneClock now evs'
  | Message _ nowCheck nowStamp :: evs' =>
      (t ≤ nowCheck ≤ nowStamp)%Z ∧ monotoneClock nowStamp evs'
  | _ :: evs' => monotoneClock t evs'
  end.

Definition isCallEnd (ev : Event) : bool :=
  match ev with CallEnd _ => true | _ => false end.

Definition isCallStart (ev : Event) : bool :=
  match ev with CallStart _ => true | _ => false end.

(** The two buttons, with the continuation of [startCall]. *)
Definition isUserAction (ev : Event) : bool :=
  match ev with
  | StartCall | StartCallSettled _ | EndCall => true
  | _ => false
  end.

Definition isPostTranscripts (e : Effect) : bool :=
  match e with PostTranscripts _ => true | _ => false end.

(** A code unit that is no ASCII letter or digit and whose lower case is
    none either (U+212A and U+0130 become [k] and [i]). *)
Definition noAsciiAlnum (c : N) : bool :=
  negb (isLowerAZ c || isUpperAZ c || isDigit c || (c =? 8490) || (c =? 304)).

(** *** The body of the POST issued at call end

    [JSON.stringify(payload)] as [express.json()] reads it back on the
    server: the properties in the order of the object literal, [startedAt]
    left out when it is [undefined]. *)
Definition messageBody (m : TranscriptMessage) : Server.json :=
  Server.JObj [ (lit "role", Server.JStr (role m));
                (lit "text", Server.JStr (text m));
                (lit "timestamp", Server.JNum (Server.Finite (inject_Z (timestamp m)))) ].

Definition callEndBody (payload : TranscriptPayload) : Server.json :=
  Server.JObj
    ([ (lit "transcript", Server.JArr (messageBody <$> payload_transcript payload)) ]
     ++ Server.optField "startedAt" (λ t, Server.JNum (Server.Finite (inject_Z t)))
          (payload_startedAt payload)
     ++ [ (lit "endedAt", Server.JNum (Server.Finite (inject_Z (payload_endedAt payload))));
          (lit "assistantId", Server.JStr (payload_assistantId payload)) ]).

(** The payload that the call-end handler builds in state [st]. *)
Definition callEndPayload (a : jsstring) (now : Z) (st : Session) : TranscriptPayload :=
  {| payload_transcript := deduplicateTranscript (transcriptRef st);
     payload_startedAt := callStartedAtRef st;
     payload_endedAt := now;
     payload_assistantId := a |}.

(** A number that [JSON.stringify] writes as itself. *)
Definition isFinite (n : Server.jsnumber) : bool :=
  match n with Server.Finite _ => true | _ => false end.


(** The properties of a JSON object. *)
Definition ownProperties (j : Server.json) : list (jsstring * Server.json) :=
  match j with
  | Server.JObj fields => fields
  | _ => []
  end.

(** What the relay makes of such a body when it accepts it. *)
Definition relayedMessage (m : TranscriptMessage) : Server.ForwardedMessage :=
  Server.mkForwardedMessage (role m) (text m)
    (Server.Finite (inject_Z (timestamp m))).

Definition relayedPayload (payload : TranscriptPayload) : Server.TranscriptForward :=
  Server.mkTranscriptForward None (Some (payload_assistantId payload))
    ((λ t, Server.Finite (inject_Z t)) <$> payload_startedAt payload)
    (Some (Server.Finite (inject_Z (payload_endedAt payload))))
    (relayedMessage <$> payload_transcript payload) None.

(* ===================================================================== *)
(** * Properties *)
(* ===================================================================== *)

(** ** Character classes and trimming *)

(** Unfolds the character classes, splits on the comparisons of the
    hypotheses and settles those of the goal by arithmetic. *)
Ltac classes :=
  unfold isAZ09Space, isAsciiLetter, isWhiteSpace, isDigit, isLowerAZ, isUpperAZ in *;
  repeat match goal with
    | H : context [N.leb ?a ?b] |- _ => destruct (N.leb_spec a b)
    | H : context [N.eqb ?a ?b] |- _ => destruct (N.eqb_spec a b)
    end;
  simpl in *; try done;
  repeat match goal with
    | |- context [N.leb ?a ?b] =>
        first [ rewrite (proj2 (N.leb_le a b)) by lia
              | rewrite (proj2 (N.leb_gt a b)) by lia ]
    | |- context [N.eqb ?a ?b] =>
        first [ rewrite (proj2 (N.eqb_neq a b)) by lia
              | rewrite (proj2 (N.eqb_eq a b)) by lia ]
    end;
  simpl; try done.

Lemma digit_not_whitespace c : isDigit c = true → isWhiteSpace c = false.
Proof. intros Hd. classes. Qed.

Lemma whitespace_not_digit c : isWhiteSpace c = true → isDigit c = false.
Proof.
  intros Hw. destruct (isDigit c) eqn:Hd; [|done].
  by rewrite (digit_not_whitespace c Hd) in Hw.
Qed.

Lemma filter_trimStart (P : N → Prop) `{∀ c, Decision (P c)} s :
  (∀ c, isWhiteSpace c = true → ¬ P c) →
  filter P (trimStart s) = filter P s.
Proof.
  intros Hws. induction s as [|c s IH]; [done|]. simpl.
  destruct (isWhiteSpace c) eqn:Hc; [|done].
  rewrite IH. symmetry. apply filter_cons_False. by apply Hws.
Qed.

Lemma filter_trim (P : N → Prop) `{∀ c, Decision (P c)} s :
  (∀ c, isWhiteSpace c = true → ¬ P c) →
  filter P (trim s) = filter P s.
Proof.
  intros Hws. unfold trim, trimEnd.
  rewrite filter_reverse, filter_trimStart by done.
  rewrite filter_reverse, reverse_involutive. by apply filter_trimStart.
Qed.

Lemma stripNonDigits_trim s : stripNonDigits (trim s) = stripNonDigits s.
Proof.
  apply filter_trim. intros c Hc. rewrite (whitespace_not_digit c Hc). by intros [].
Qed.

Lemma elem_of_trimStart c s : c ∈ trimStart s → c ∈ s.
Proof.
  induction s as [|d s IH]; simpl; [done|].
  destruct (isWhiteSpace d); [|done]. intros Hc. rewrite elem_of_cons. right. by apply IH.
Qed.

Lemma elem_of_trim c s : c ∈ trim s → c ∈ s.
Proof.
  unfold trim, trimEnd. rewrite elem_of_reverse. intros Hc.
  apply elem_of_trimStart in Hc. rewrite elem_of_reverse in Hc.
  by apply elem_of_trimStart.
Qed.

Lemma falsy_nil s : falsy s = true ↔ s = [].
Proof. by destruct s. Qed.

(** ** Phone normalisation *)

Lemma normalize_plus input cc :
  startsWithChar 43 (trim input) = true →
  normalizeToE164Like input cc =
    if falsy (stripNonDigits input) then None
    else Some (43 :: stripNonDigits input).
Proof.
  intros Hp. unfold normalizeToE164Like. rewrite Hp, stripNonDigits_trim.
  by destruct (trim input).
Qed.

Lemma normalize_no_plus input cc :
  startsWithChar 43 (trim input) = false →
  normalizeToE164Like input cc =
    let digits := stripNonDigits input in
    if (length digits =? 11)%nat && startsWithChar 49 digits then Some (43 :: digits)
    else if (length digits =? 10)%nat then Some (43 :: cc ++ digits)
    else if (7 <=? length digits)%nat && (length digits <=? 15)%nat then Some (43 :: digits)
    else None.
Proof.
  intros Hp. unfold normalizeToE164Like. rewrite Hp.
  destruct (falsy (trim input)) eqn:He; [|by rewrite stripNonDigits_trim].
  apply falsy_nil in He. rewrite <- stripNonDigits_trim, He. done.
Qed.

(** C3.  [normalizeToE164Like], called with the default country code,
    follows the normalisation rule.  With [digits] the digit characters of
    the input: if the trimmed input begins with [+], the result is [+] and
    the digits, or [null] when there is no digit; otherwise 11 digits
    beginning with [1] give [+] and the digits, exactly 10 digits give [+1]
    and the digits, 7 to 15 digits give [+] and the digits, and any other
    count, the empty input included, gives [null].  The five sample
    numbers normalise as listed. *)
Theorem normalizeToE164Like_rule :
  (∀ input : jsstring,
     let digits := stripNonDigits input in
     let result := normalizeToE164Like input defaultCountryCode in
     (startsWithChar 43 (trim input) = true →
        (digits = [] → result = None)
        ∧ (digits ≠ [] → result = Some (lit "+" ++ digits)))
     ∧ (startsWithChar 43 (trim input) = false →
        (length digits = 11%nat → startsWithChar 49 digits = true →
           result = Some (lit "+" ++ digits))
        ∧ (length digits = 10%nat → result = Some (lit "+" ++ lit "1" ++ digits))
        ∧ ((7 ≤ length digits ≤ 15)%nat → length digits ≠ 10%nat →
           result = Some (lit "+" ++ digits))
        ∧ ((length digits < 7 ∨ 15 < length digits)%nat → result = None)))
  ∧ normalizeToE164Like (lit "5551234567") defaultCountryCode
      = Some (lit "+15551234567")
  ∧ normalizeToE164Like (lit "15551234567") defaultCountryCode
      = Some (lit "+15551234567")
  ∧ normalizeToE164Like (lit "+44 20 7946 0958") defaultCountryCode
      = Some (lit "+442079460958")
  ∧ normalizeToE164Like (lit "123") defaultCountryCode = None
  ∧ normalizeToE164Like (lit "") defaultCountryCode = None.
Proof.
  split; [|by repeat split].
  intros input digits result. split; intros Hp.
  - subst result. rewrite (normalize_plus _ _ Hp). fold digits.
    split; intros Hd; destruct digits; done.
  - subst result. rewrite (normalize_no_plus _ _ Hp). cbv zeta. fold digits.
    repeat split.
    + intros Hl Hs. by rewrite Hl, Hs.
    + intros Hl. by rewrite Hl.
    + intros [H7 H15] H10.
      destruct (Nat.eqb_spec (length digits) 10) as [|_]; [done|].
      destruct (Nat.leb_spec 7 (length digits)); [|lia].
      destruct (Nat.leb_spec (length digits) 15); [|lia].
      by destruct (_ && _).
    + intros Hl.
      destruct (Nat.eqb_spec (length digits) 11) as [|_]; [lia|].
      destruct (Nat.eqb_spec (length digits) 10) as [|_]; [lia|].
      destruct (Nat.leb_spec 7 (length digits));
        destruct (Nat.leb_spec (length digits) 15); simpl; done || lia.
Qed.

(** The rule applied to a ten-digit national number written with
    punctuation. *)
Lemma normalizeToE164Like_rule_witness :
  normalizeToE164Like (lit "(555) 123-4567") defaultCountryCode
    = Some (lit "+15551234567").
Proof.
  pose proof (proj1 normalizeToE164Like_rule (lit "(555) 123-4567")) as [_ H].
  destruct (H eq_refl) as (_ & H10 & _).
  exact (H10 eq_refl).
Defined.

(** ** Keeping first occurrences *)

Section first_occurrences.
Context {A K : Type} `{EqDecision K} (key : A → K).

Lemma keepFirstOccurrences_nil : keepFirstOccurrences key [] = [].
Proof. done. Qed.

(** The filter processes its input from left to right: the fate of the
    last message depends on the keys before it, that of the others does
    not depend on it. *)
Lemma keepFirstOccurrences_snoc l m :
  keepFirstOccurrences key (l ++ [m]) =
    keepFirstOccurrences key l
      ++ (if decide (key m ∈ key <$> l) then [] else [m]).
Proof.
  unfold keepFirstOccurrences. rewrite imap_app, omap_app. f_equal.
  - f_equal. apply imap_ext. intros i x Hi. unfold firstOccurrence.
    apply lookup_lt_Some in Hi. rewrite take_app_le by lia. done.
  - simpl. unfold firstOccurrence.
    rewrite Nat.add_0_r, take_app_length.
    rewrite bool_decide_decide.
    destruct (decide (key m ∈ key <$> l)) as [Hin|Hin].
    + rewrite decide_False by auto. done.
    + rewrite decide_True by done. done.
Qed.

(** The filter removes no key. *)
Lemma keepFirstOccurrences_keys l k :
  k ∈ key <$> keepFirstOccurrences key l ↔ k ∈ key <$> l.
Proof.
  induction l as [|m l IH] using rev_ind; [done|].
  rewrite keepFirstOccurrences_snoc, !fmap_app, !elem_of_app, IH.
  destruct (decide (key m ∈ key <$> l)) as [Hin|Hin]; simpl; [|done].
  rewrite list_elem_of_singleton. split; [intros [|[]%elem_of_nil]; by left|].
  intros [?| ->]; by left.
Qed.

(** Every message of the output is a first occurrence in the output. *)
Lemma keepFirstOccurrences_idemp l :
  keepFirstOccurrences key (keepFirstOccurrences key l)
    = keepFirstOccurrences key l.
Proof.
  induction l as [|m l IH] using rev_ind; [done|].
  rewrite keepFirstOccurrences_snoc.
  destruct (decide (key m ∈ key <$> l)) as [Hin|Hin].
  - by rewrite app_nil_r.
  - rewrite keepFirstOccurrences_snoc, IH.
    rewrite decide_False; [done|]. by rewrite keepFirstOccurrences_keys.
Qed.

(** The output is a subsequence of the input. *)
Lemma keepFirstOccurrences_sublist l :
  keepFirstOccurrences key l `sublist_of` l.
Proof.
  induction l as [|m l IH] using rev_ind; [done|].
  rewrite keepFirstOccurrences_snoc. apply sublist_app; [done|].
  destruct (decide _); [apply sublist_nil_l | done].
Qed.

End first_occurrences.

(** Only the equalities between keys matter. *)
Lemma keepFirstOccurrences_ext {A K K'} `{EqDecision K, EqDecision K'}
  (key : A → K) (key' : A → K') l :
  (∀ a b, key a = key b ↔ key' a = key' b) →
  keepFirstOccurrences key l = keepFirstOccurrences key' l.
Proof.
  intros Heq. induction l as [|m l IH] using rev_ind; [done|].
  rewrite !keepFirstOccurrences_snoc, IH. f_equal.
  assert (key m ∈ key <$> l ↔ key' m ∈ key' <$> l) as Hiff.
  { rewrite !list_elem_of_fmap. split; intros (x & Hx & Hl); exists x.
    - split; [by apply Heq | done].
    - split; [by apply Heq | done]. }
  destruct (decide (key m ∈ key <$> l)), (decide (key' m ∈ key' <$> l));
    try done; exfalso; tauto.
Qed.

(** ** Deduplication *)

Lemma filter_ext_elem {A} (P Q : A → Prop)
    `{∀ x, Decision (P x), ∀ x, Decision (Q x)} (l : list A) :
  (∀ x, x ∈ l → P x ↔ Q x) → filter P l = filter Q l.
Proof.
  induction l as [|x l IH]; [done|]. intros Hl.
  assert (P x ↔ Q x) as Hx by (apply Hl; left).
  rewrite !filter_cons, IH.
  - destruct (decide (P x)), (decide (Q x)); try done; exfalso; tauto.
  - intros y Hy. apply Hl. by right.
Qed.

(** Lower-casing leaves no ASCII capital. *)
Lemma toLowerCase_no_capital c t : c ∈ toLowerCase t → isUpperAZ c = false.
Proof.
  unfold toLowerCase. rewrite list_elem_of_bind. intros (d & Hc & _).
  unfold lowerUnit in Hc.
  destruct (isUpperAZ d) eqn:Hd.
  { apply list_elem_of_singleton in Hc as ->. classes. }
  destruct (d =? 8490).
  { by apply list_elem_of_singleton in Hc as ->. }
  destruct (d =? 304).
  { apply elem_of_cons in Hc as [->|Hc]; [done|].
    by apply list_elem_of_singleton in Hc as ->. }
  by apply list_elem_of_singleton in Hc as ->.
Qed.

(** The normalised text of the code is the one the specification words. *)
Lemma normalizedText_spec t : normalizedText t = specNormalizedText t.
Proof.
  unfold normalizedText, specNormalizedText, stripNonAZ09Space. f_equal.
  apply filter_ext_elem. intros c Hc.
  apply toLowerCase_no_capital in Hc.
  unfold isAZ09Space, isAsciiLetter. rewrite Hc, orb_false_r. done.
Qed.

(** The separator of the key does not occur in a normalised text. *)
Lemma bar_not_in_normalizedText t : 124 ∉ normalizedText t.
Proof.
  unfold normalizedText, stripNonAZ09Space. intros Hin.
  apply elem_of_trim, list_elem_of_filter in Hin as [Hin _]. done.
Qed.

(** The string key of the code identifies the pair of the specification. *)
Lemma dedupKey_specKey a b : dedupKey a = dedupKey b ↔ specKey a = specKey b.
Proof.
  unfold dedupKey, specKey. rewrite <- !normalizedText_spec. split.
  - intros Heq.
    apply not_elem_of_app_cons_inv_r in Heq as (-> & _ & ->);
      auto using bar_not_in_normalizedText.
  - by intros [= -> ->].
Qed.

(** The loop keeps in [seenKeys] the keys met so far and in
    [uniqueMessages] their first occurrences. *)
Lemma foldl_dedupStep messages :
  let acc := foldl dedupStep (∅, []) messages in
  (∀ k, k ∈ acc.1 ↔ k ∈ dedupKey <$> messages)
  ∧ acc.2 = keepFirstOccurrences dedupKey messages.
Proof.
  induction messages as [|m l IH] using rev_ind; simpl.
  - split; [|done]. intros k. set_solver.
  - rewrite foldl_snoc. destruct IH as [Hseen Huniq].
    rewrite keepFirstOccurrences_snoc. unfold dedupStep at 1 3.
    destruct (decide (dedupKey m ∈ (foldl dedupStep (∅, []) l).1)) as [Hin|Hin].
    + rewrite decide_True by by apply Hseen. rewrite app_nil_r.
      split; [|done]. intros k. rewrite Hseen, fmap_app, elem_of_app.
      split; [by left|]. intros [?|Hk]; [done|].
      apply list_elem_of_singleton in Hk as ->. by apply Hseen.
    + rewrite decide_False by by rewrite <- Hseen. simpl.
      split; [|by rewrite Huniq].
      intros k. rewrite elem_of_union, elem_of_singleton, Hseen.
      rewrite fmap_app, elem_of_app. simpl. rewrite list_elem_of_singleton.
      tauto.
Qed.

Lemma deduplicateTranscript_keepFirst messages :
  deduplicateTranscript messages = keepFirstOccurrences specKey messages.
Proof.
  unfold deduplicateTranscript.
  rewrite (proj2 (foldl_dedupStep messages)).
  apply keepFirstOccurrences_ext, dedupKey_specKey.
Qed.

(** C2.  The deduplication pass keeps, in their order and unmodified, exactly
    the messages whose key [(role, normalizedText)] occurs at no earlier
    position, the normalised text being the lower-cased text without the
    characters that are not an ASCII letter, a digit or white space,
    trimmed.  [user "Hi!", assistant "Hello", user "hi"] yields
    [user "Hi!", assistant "Hello"], and the empty list yields the empty
    list. *)
Theorem deduplicateTranscript_first_occurrence_wins :
  (∀ messages : list TranscriptMessage,
     deduplicateTranscript messages = keepFirstOccurrences specKey messages
     ∧ deduplicateTranscript messages `sublist_of` messages)
  ∧ deduplicateTranscript
      [ mkMessage (lit "user") (lit "Hi!") 1000;
        mkMessage (lit "assistant") (lit "Hello") 2000;
        mkMessage (lit "user") (lit "hi") 5000 ]
    = [ mkMessage (lit "user") (lit "Hi!") 1000;
        mkMessage (lit "assistant") (lit "Hello") 2000 ]
  ∧ deduplicateTranscript [] = [].
Proof.
  split; [|split].
  - intros messages. rewrite deduplicateTranscript_keepFirst.
    split; [done | apply keepFirstOccurrences_sublist].
  - rewrite deduplicateTranscript_keepFirst. by vm_compute.
  - by rewrite deduplicateTranscript_keepFirst.
Qed.

(** C8.  Deduplicating a deduplicated transcript changes nothing. *)
Theorem deduplicateTranscript_idempotent (l : list TranscriptMessage) :
  deduplicateTranscript (deduplicateTranscript l) = deduplicateTranscript l.
Proof.
  rewrite !deduplicateTranscript_keepFirst.
  apply keepFirstOccurrences_idemp.
Qed.

(** ** Transcript fragments *)

Lemma trimStart_blank s :
  Forall (λ c, isWhiteSpace c = true) s → trimStart s = [].
Proof. induction 1 as [|c s Hc _ IH]; simpl; [done|]. by rewrite Hc. Qed.

Lemma trim_blank s : Forall (λ c, isWhiteSpace c = true) s → trim s = [].
Proof. intros Hs. unfold trim. by rewrite trimStart_blank. Qed.

Lemma mergeFragment_merge r t nowCheck nowStamp earlier lastMessage :
  role lastMessage = r →
  (nowCheck - timestamp lastMessage < 3000)%Z →
  mergeFragment r t nowCheck nowStamp (earlier ++ [lastMessage])
    = earlier ++ [mkMessage r t nowStamp].
Proof.
  intros Hr Hw. unfold mergeFragment. rewrite last_snoc.
  rewrite bool_decide_eq_true_2 by done.
  destruct (Z.ltb_spec (nowCheck - timestamp lastMessage) 3000); [|lia].
  simpl. rewrite length_app. simpl.
  replace (pred (length earlier + 1)) with (length earlier + 0)%nat by lia.
  rewrite insert_app_r. simpl. by rewrite Hr.
Qed.

Lemma mergeFragment_append r t nowCheck nowStamp prev :
  prev = []
  ∨ (∃ earlier lastMessage,
       prev = earlier ++ [lastMessage]
       ∧ (role lastMessage ≠ r ∨ (3000 ≤ nowCheck - timestamp lastMessage)%Z)) →
  mergeFragment r t nowCheck nowStamp prev = prev ++ [mkMessage r t nowStamp].
Proof.
  intros [->|(earlier & lastMessage & -> & Hno)]; [done|].
  unfold mergeFragment. rewrite last_snoc.
  destruct Hno as [Hr|Hw].
  - by rewrite bool_decide_eq_false_2.
  - destruct (Z.ltb_spec (nowCheck - timestamp lastMessage) 3000); [lia|].
    by rewrite andb_false_r.
Qed.

Lemma transcript_fragment a r f st :
  spoken f →
  transcript (handle a st (fragmentEvent r f))
    = mergeFragment r (trim (frag_text f)) (frag_check f) (frag_stamp f)
        (transcript st).
Proof.
  unfold spoken. intros Hs. simpl. unfold onMessage. simpl.
  destruct (trim (frag_text f)); done.
Qed.

(** The first fragment of a run leaves a message of its own at the end of
    the transcript, after the transcript or after all but its last message. *)
Lemma mergeFragment_last r t nowCheck nowStamp prev :
  ∃ earlier,
    mergeFragment r t nowCheck nowStamp prev = earlier ++ [mkMessage r t nowStamp]
    ∧ (earlier = prev ∨ ∃ lastMessage, prev = earlier ++ [lastMessage]).
Proof.
  destruct prev as [|m prev _] using rev_ind.
  { exists []. split; [done | by left]. }
  destruct (decide (role m = r)) as [Hr|Hr];
    [destruct (decide (nowCheck - timestamp m < 3000)%Z) as [Hw|Hw]|].
  - exists prev. split; [by apply mergeFragment_merge | right; by exists m].
  - exists (prev ++ [m]). split; [|by left].
    apply mergeFragment_append. right. exists prev, m. split; [done|right; lia].
  - exists (prev ++ [m]). split; [|by left].
    apply mergeFragment_append. right. exists prev, m. split; [done|by left].
Qed.

(** Fragments that follow one another within the window keep rewriting the
    one message. *)
Lemma run_fragments_merge a r fs : ∀ st earlier m,
  transcript st = earlier ++ [m] →
  role m = r →
  Forall spoken fs →
  withinWindow (timestamp m) fs →
  transcript (run a st (fragmentEvent r <$> fs))
    = earlier ++ [ match last fs with
                   | Some f => mkMessage r (trim (frag_text f)) (frag_stamp f)
                   | None => m
                   end ].
Proof.
  induction fs as [|f fs IH]; intros st earlier m Htr Hr Hsp Hwin; [done|].
  apply Forall_cons in Hsp as [Hf Hsp]. destruct Hwin as [Hw Hwin].
  unfold run in *. rewrite fmap_cons. simpl foldl.
  rewrite (IH _ earlier (mkMessage r (trim (frag_text f)) (frag_stamp f)));
    try done.
  - f_equal. f_equal. rewrite last_cons. by destruct (last fs).
  - change (onMessage _ _ _ st) with (handle a st (fragmentEvent r f)).
    rewrite transcript_fragment, Htr by done. by apply mergeFragment_merge.
Qed.

(** C1.  A fragment of role [r] whose trimmed text [t] is not empty replaces
    the last message by [{r, t, now}] when that message has role [r] and is
    less than 3000 ms old, the messages before it being kept; in every other
    case (empty transcript, other role, 3000 ms or more) it appends
    [{r, t, now}].  Hence a run of fragments of one role, each handled less
    than 3000 ms after the previous update, leaves exactly one message,
    which carries the text of the last fragment. *)
Theorem onTranscriptFragment_merge_or_append
    (a r : jsstring) (st : Session) (f : Fragment) :
  spoken f →
  let st' := handle a st (fragmentEvent r f) in
  let fresh := mkMessage r (trim (frag_text f)) (frag_stamp f) in
  (∀ earlier lastMessage,
     transcript st = earlier ++ [lastMessage] →
     role lastMessage = r →
     (frag_check f - timestamp lastMessage < 3000)%Z →
     transcript st' = earlier ++ [fresh])
  ∧ (transcript st = []
     ∨ (∃ earlier lastMessage,
          transcript st = earlier ++ [lastMessage]
          ∧ (role lastMessage ≠ r
             ∨ (3000 ≤ frag_check f - timestamp lastMessage)%Z)) →
     transcript st' = transcript st ++ [fresh])
  ∧ (∀ fs : list Fragment,
       Forall spoken fs →
       withinWindow (frag_stamp f) fs →
       ∃ earlier,
         (earlier = transcript st
          ∨ ∃ lastMessage, transcript st = earlier ++ [lastMessage])
         ∧ transcript st' = earlier ++ [fresh]
         ∧ transcript (run a st' (fragmentEvent r <$> fs))
           = earlier ++ [ mkMessage r (trim (frag_text (default f (last fs))))
                                      (frag_stamp (default f (last fs))) ]).
Proof.
  intros Hf st' fresh.
  assert (transcript st' = mergeFragment r (trim (frag_text f)) (frag_check f)
                             (frag_stamp f) (transcript st)) as Hst'
    by by apply transcript_fragment.
  split; [|split].
  - intros earlier lastMessage Htr Hr Hw.
    rewrite Hst', Htr. by apply mergeFragment_merge.
  - intros Hcase. rewrite Hst'. by apply mergeFragment_append.
  - intros fs Hsp Hwin.
    destruct (mergeFragment_last r (trim (frag_text f)) (frag_check f)
                (frag_stamp f) (transcript st)) as (earlier & Hm & Hearlier).
    exists earlier. rewrite <- Hst' in Hm.
    split; [destruct Hearlier as [->|?]; [by left | by right]|].
    split; [done|].
    rewrite (run_fragments_merge a r fs st' earlier fresh); try done.
    by destruct (last fs).
Qed.

(** A partial transcript of the user grows within the window. *)
Lemma onTranscriptFragment_merge_or_append_witness :
  let st := run (lit "asst") (initialSession true)
              [StartCall; CallStart 0;
               fragmentEvent (lit "user") (mkFragment (lit "Hel") 1000 1000)] in
  transcript (handle (lit "asst") st
                (fragmentEvent (lit "user") (mkFragment (lit " Hello ") 2500 2501)))
    = [mkMessage (lit "user") (lit "Hello") 2501].
Proof.
  intros st.
  assert (spoken (mkFragment (lit " Hello ") 2500 2501)) as Hs by by vm_compute.
  destruct (onTranscriptFragment_merge_or_append (lit "asst") (lit "user") st
              (mkFragment (lit " Hello ") 2500 2501) Hs) as [Hmerge _].
  exact (Hmerge [] (mkMessage (lit "user") (lit "Hel") 1000)
           eq_refl eq_refl eq_refl).
Defined.

(** C9.  A transcript event whose text is empty or made of white space only
    leaves the whole session state as it was. *)
Theorem blank_fragment_is_noop
    (a : jsstring) (st : Session) (message : VapiMessage) (nowCheck nowStamp : Z) :
  Forall (λ c, isWhiteSpace c = true) (default [] (msg_transcript message)) →
  handle a st (Message message nowCheck nowStamp) = st.
Proof.
  intros Hblank. simpl. unfold onMessage.
  rewrite (trim_blank _ Hblank). simpl. by destruct (bool_decide _).
Qed.

Lemma blank_fragment_is_noop_witness :
  let st := run (lit "asst") (initialSession true)
              [StartCall; CallStart 0;
               fragmentEvent (lit "user") (mkFragment (lit "Hello") 1000 1000)] in
  handle (lit "asst") st
    (Message (mkVapiMessage (lit "transcript") (Some (lit "user")) (Some (lit "   ")))
             1500 1500) = st.
Proof.
  intros st. apply blank_fragment_is_noop.
  repeat constructor.
Defined.

(** ** Speaking and listening *)

Lemma handle_exclusive a st ev :
  (ev = StartCallSettled true → isSpeaking st = false) →
  exclusive st → exclusive (handle a st ev).
Proof.
  unfold exclusive. intros Hquiet Hex.
  destruct ev as [now|now| | |m nc ns| | |[]| | |]; simpl; try done.
  - unfold onMessage. destruct (bool_decide _); [|done].
    by destruct (falsy _).
  - unfold startCall. by destruct (vapi st).
  - unfold startCallSettled. destruct (vapi st); simpl; [|done].
    by rewrite Hquiet.
  - unfold startCallSettled. by destruct (vapi st).
  - unfold endCall. by destruct (vapi st).
Qed.

(** A successful start that is settled after the assistant began to speak
    sets [isListening] beside [isSpeaking]. *)
Lemma speaking_and_listening_together :
  let st := run (lit "asst") (initialSession true)
              [StartCall; CallStart 0; SpeechStart; StartCallSettled true] in
  isSpeaking st = true ∧ isListening st = true.
Proof. by vm_compute. Qed.

(** C7, amended.  From the initial state, along every sequence of handlers
    in which no start of a call is fulfilled while [isSpeaking] is set,
    [isSpeaking] and [isListening] are never both set; speech-start sets
    speaking and clears listening, speech-end clears speaking and sets
    listening, and call-end clears both. *)
Theorem speaking_listening_exclusive (a : jsstring) (ready : bool) :
  (∀ evs : list Event,
     startsWhileSilent a (initialSession ready) evs →
     exclusive (run a (initialSession ready) evs))
  ∧ (∀ st, isSpeaking (handle a st SpeechStart) = true
           ∧ isListening (handle a st SpeechStart) = false)
  ∧ (∀ st, isSpeaking (handle a st SpeechEnd) = false
           ∧ isListening (handle a st SpeechEnd) = true)
  ∧ (∀ st now, isSpeaking (handle a st (CallEnd now)) = false
               ∧ isListening (handle a st (CallEnd now)) = false).
Proof.
  split; [|by repeat split].
  assert (∀ evs st, exclusive st → startsWhileSilent a st evs →
                    exclusive (run a st evs)) as Hinv.
  { induction evs as [|ev evs IH]; intros st Hex Hq; [done|].
    destruct Hq as [Hq Hqs]. apply IH; [|done]. by apply handle_exclusive. }
  intros evs. apply Hinv. by destruct ready.
Qed.

Lemma speaking_listening_exclusive_witness :
  exclusive (run (lit "asst") (initialSession true)
               [StartCall; StartCallSettled true; CallStart 0;
                SpeechStart; SpeechEnd; SpeechStart; CallEnd 9000]).
Proof.
  apply (proj1 (speaking_listening_exclusive (lit "asst") true)).
  by vm_compute.
Defined.

(* ===================================================================== *)
(** * Further properties of the phone normalisation *)
(* ===================================================================== *)

Lemma trimStart_head s c :
  head s = Some c → isWhiteSpace c = false → trimStart s = s.
Proof. destruct s as [|d s]; [done|]. simpl. by intros [= ->] ->. Qed.

Lemma trim_no_whitespace s :
  Forall (λ c, isWhiteSpace c = false) s → trim s = s.
Proof.
  intros Hs. unfold trim, trimEnd.
  assert (∀ l, Forall (λ c, isWhiteSpace c = false) l → trimStart l = l) as Hid.
  { intros [|c l] Hl; [done|]. apply Forall_cons in Hl as [Hc _].
    by apply (trimStart_head _ c). }
  rewrite (Hid s Hs), (Hid (reverse s)) by by apply Forall_reverse.
  apply reverse_involutive.
Qed.

Lemma stripNonDigits_digits s : Forall (λ c, isDigit c = true) (stripNonDigits s).
Proof.
  apply Forall_forall. intros c [Hc _]%list_elem_of_filter.
  by destruct (isDigit c).
Qed.

Lemma stripNonDigits_id s :
  Forall (λ c, isDigit c = true) s → stripNonDigits s = s.
Proof.
  induction 1 as [|c s Hc _ IH]; [done|]. unfold stripNonDigits in *.
  rewrite filter_cons_True by by rewrite Hc. by rewrite IH.
Qed.

(** The shape of a result, for any country code made of digits. *)
Lemma normalize_result_shape (input cc s : jsstring) :
  Forall (λ c, isDigit c = true) cc →
  normalizeToE164Like input cc = Some s →
  ∃ ds, s = 43 :: ds
        ∧ ds ≠ []
        ∧ Forall (λ c, isDigit c = true) ds
        ∧ (startsWithChar 43 (trim input) = false →
           (7 ≤ length ds ≤ 15 ∨ length ds = length cc + 10)%nat).
Proof.
  intros Hcc. destruct (startsWithChar 43 (trim input)) eqn:Hp.
  - rewrite (normalize_plus _ _ Hp).
    destruct (stripNonDigits input) as [|d ds] eqn:Hd; [done|].
    intros [= <-]. exists (d :: ds). rewrite <- Hd.
    split; [done|]. split; [by rewrite Hd|].
    split; [apply stripNonDigits_digits | done].
  - rewrite (normalize_no_plus _ _ Hp). cbv zeta.
    pose proof (stripNonDigits_digits input) as Hdig.
    set (digits := stripNonDigits input) in *.
    assert (∀ ds : jsstring,
              (7 ≤ length ds ≤ 15 ∨ length ds = length cc + 10)%nat →
              Forall (λ c, isDigit c = true) ds →
              ∃ ds', 43 :: ds = 43 :: ds' ∧ ds' ≠ []
                     ∧ Forall (λ c, isDigit c = true) ds'
                     ∧ (false = false →
                        (7 ≤ length ds' ≤ 15 ∨ length ds' = length cc + 10)%nat))
      as Hgood.
    { intros ds Hlen Hds. exists ds. split; [done|].
      split; [|done]. intros ->. simpl in Hlen. lia. }
    destruct ((length digits =? 11)%nat && startsWithChar 49 digits) eqn:H11.
    { apply andb_true_iff in H11 as [H11%Nat.eqb_eq _].
      intros [= <-]. apply Hgood; [lia | done]. }
    destruct (Nat.eqb_spec (length digits) 10) as [H10|H10].
    { intros [= <-]. apply Hgood.
      - right. rewrite length_app. lia.
      - apply Forall_app. by split. }
    destruct (Nat.leb_spec 7 (length digits)); [|done].
    destruct (Nat.leb_spec (length digits) 15); [|done].
    intros [= <-]. apply Hgood; [lia | done].
Qed.

(** X1.  Whatever the input, a result of [normalizeToE164Like] is a [+]
    followed by at least one digit and by digits only; when the input was
    written without a leading [+], the digits number 7 to 15. *)
Theorem normalizeToE164Like_shape (input s : jsstring) :
  normalizeToE164Like input defaultCountryCode = Some s →
  ∃ ds, s = 43 :: ds
        ∧ ds ≠ []
        ∧ Forall (λ c, isDigit c = true) ds
        ∧ (startsWithChar 43 (trim input) = false → (7 ≤ length ds ≤ 15)%nat).
Proof.
  intros Hs.
  destruct (normalize_result_shape input defaultCountryCode s) as
    (ds & Heq & Hne & Hds & Hlen); [by repeat constructor | done |].
  exists ds. split; [done|]. split; [done|]. split; [done|].
  intros Hp. destruct (Hlen Hp) as [|Hcc]; [done|].
  rewrite Hcc. simpl. lia.
Qed.

Lemma normalizeToE164Like_shape_witness :
  ∃ ds, lit "+442079460958" = 43 :: ds
        ∧ ds ≠ []
        ∧ Forall (λ c, isDigit c = true) ds
        ∧ (startsWithChar 43 (trim (lit "+44 (20) 7946-0958")) = false →
           (7 ≤ length ds ≤ 15)%nat).
Proof.
  exact (normalizeToE164Like_shape (lit "+44 (20) 7946-0958")
           (lit "+442079460958") eq_refl).
Defined.

(** X2.  A normalised number is left as it is by a second normalisation. *)
Theorem normalizeToE164Like_idempotent (input s : jsstring) :
  normalizeToE164Like input defaultCountryCode = Some s →
  normalizeToE164Like s defaultCountryCode = Some s.
Proof.
  intros Hs.
  destruct (normalize_result_shape input defaultCountryCode s) as
    (ds & -> & Hne & Hds & _); [by repeat constructor | done |].
  assert (trim (43 :: ds) = 43 :: ds) as Htrim.
  { apply trim_no_whitespace. constructor; [done|].
    eapply Forall_impl; [done|]. intros c Hc. by apply digit_not_whitespace. }
  rewrite normalize_plus by by rewrite Htrim.
  assert (stripNonDigits (43 :: ds) = ds) as ->.
  { unfold stripNonDigits. rewrite filter_cons_False by (by vm_compute).
    by apply stripNonDigits_id. }
  by destruct ds.
Qed.

Lemma normalizeToE164Like_idempotent_witness :
  normalizeToE164Like (lit "+15551234567") defaultCountryCode
    = Some (lit "+15551234567").
Proof.
  exact (normalizeToE164Like_idempotent (lit "(555) 123-4567")
           (lit "+15551234567") eq_refl).
Defined.

(* ===================================================================== *)
(** * Further properties of the deduplication *)
(* ===================================================================== *)

Section first_occurrences_more.
Context {A K : Type} `{EqDecision K} (key : A → K).

Lemma keepFirstOccurrences_NoDup l :
  NoDup (key <$> keepFirstOccurrences key l).
Proof.
  induction l as [|m l IH] using rev_ind; [constructor|].
  rewrite keepFirstOccurrences_snoc.
  destruct (decide (key m ∈ key <$> l)) as [Hin|Hin].
  - by rewrite app_nil_r.
  - rewrite fmap_app. apply NoDup_app. split; [done|]. split.
    + intros k Hk Hk'. apply list_elem_of_singleton in Hk' as ->.
      by rewrite keepFirstOccurrences_keys in Hk.
    + apply NoDup_singleton.
Qed.

Lemma keepFirstOccurrences_fixpoint l :
  keepFirstOccurrences key l = l ↔ NoDup (key <$> l).
Proof.
  split.
  - intros <-. apply keepFirstOccurrences_NoDup.
  - induction l as [|m l IH] using rev_ind; [done|].
    rewrite fmap_app. intros (Hl & Hm & _)%NoDup_app.
    rewrite keepFirstOccurrences_snoc, (IH Hl).
    rewrite decide_False; [done|]. intros Hin. apply (Hm _ Hin). by left.
Qed.

Lemma keepFirstOccurrences_app l1 l2 :
  keepFirstOccurrences key (l1 ++ l2) =
    keepFirstOccurrences key l1
      ++ filter (λ m, key m ∉ key <$> l1) (keepFirstOccurrences key l2).
Proof.
  induction l2 as [|m l IH] using rev_ind.
  { by rewrite !app_nil_r. }
  rewrite app_assoc, !keepFirstOccurrences_snoc, IH, filter_app, <- app_assoc.
  do 2 f_equal. rewrite fmap_app.
  destruct (decide (key m ∈ key <$> l)) as [Hl|Hl].
  - rewrite decide_True; [done|]. apply elem_of_app. by right.
  - destruct (decide (key m ∈ key <$> l1)) as [H1|H1].
    + rewrite decide_True by (apply elem_of_app; by left).
      by rewrite filter_cons_False by auto.
    + rewrite decide_False by (rewrite elem_of_app; tauto).
      by rewrite filter_cons_True.
Qed.

Lemma filter_none (P : A → Prop) `{∀ x, Decision (P x)} (l : list A) :
  Forall (λ x, ¬ P x) l → filter P l = [].
Proof.
  induction 1 as [|x l Hx _ IH]; [done|]. by rewrite filter_cons_False.
Qed.

Lemma keepFirstOccurrences_cons m l :
  keepFirstOccurrences key (m :: l) =
    m :: filter (λ x, key x ∉ key <$> [m]) (keepFirstOccurrences key l).
Proof. apply (keepFirstOccurrences_app [m] l). Qed.

End first_occurrences_more.

(** X3.  No two messages of a deduplicated transcript have the same key,
    and a transcript is left as it is exactly when its keys are pairwise
    distinct. *)
Theorem deduplicateTranscript_distinct_keys (l : list TranscriptMessage) :
  NoDup (specKey <$> deduplicateTranscript l)
  ∧ (deduplicateTranscript l = l ↔ NoDup (specKey <$> l)).
Proof.
  rewrite deduplicateTranscript_keepFirst.
  split; [apply keepFirstOccurrences_NoDup | apply keepFirstOccurrences_fixpoint].
Qed.

(** X4.  Deduplication loses no speaker and no utterance: every message of
    the input has a message of the same role and normalised text in the
    output.  The first message is always kept, and the output is no longer
    than the input. *)
Theorem deduplicateTranscript_represents (l : list TranscriptMessage) :
  (∀ m, m ∈ l →
     ∃ m', m' ∈ deduplicateTranscript l
           ∧ role m' = role m
           ∧ normalizedText (text m') = normalizedText (text m))
  ∧ head (deduplicateTranscript l) = head l
  ∧ (length (deduplicateTranscript l) ≤ length l)%nat.
Proof.
  rewrite deduplicateTranscript_keepFirst. split; [|split].
  - intros m Hm.
    assert (specKey m ∈ specKey <$> keepFirstOccurrences specKey l) as Hk.
    { apply keepFirstOccurrences_keys. by apply list_elem_of_fmap_2. }
    apply list_elem_of_fmap in Hk as (m' & Heq & Hm').
    exists m'. split; [done|]. unfold specKey in Heq.
    rewrite !normalizedText_spec. by injection Heq as -> ->.
  - destruct l as [|m l]; [done|]. by rewrite keepFirstOccurrences_cons.
  - apply sublist_length, keepFirstOccurrences_sublist.
Qed.

(** X5.  Deduplicating two transcripts laid end to end keeps the first
    occurrences of the first and, of those of the second, the ones whose
    key the first does not hold; a transcript delivered twice in a row is
    reduced to one copy. *)
Theorem deduplicateTranscript_app (l1 l2 : list TranscriptMessage) :
  deduplicateTranscript (l1 ++ l2) =
    deduplicateTranscript l1
      ++ filter (λ m, specKey m ∉ specKey <$> l1) (deduplicateTranscript l2)
  ∧ deduplicateTranscript (l1 ++ l1) = deduplicateTranscript l1.
Proof.
  rewrite !deduplicateTranscript_keepFirst. split.
  - apply keepFirstOccurrences_app.
  - rewrite keepFirstOccurrences_app.
    rewrite filter_none; [by rewrite app_nil_r|].
    apply Forall_forall. intros m Hm Hnot. apply Hnot.
    apply keepFirstOccurrences_keys with (key := specKey).
    by apply list_elem_of_fmap_2.
Qed.

Lemma normalizedText_noAsciiAlnum t :
  Forall (λ c, noAsciiAlnum c = true) t → normalizedText t = [].
Proof.
  intros Ht. unfold normalizedText. apply trim_blank.
  apply Forall_forall. intros c Hc.
  unfold stripNonAZ09Space in Hc. apply list_elem_of_filter in Hc as [Hkeep Hc].
  unfold toLowerCase in Hc. apply list_elem_of_bind in Hc as (d & Hc & Hd).
  rewrite Forall_forall in Ht. specialize (Ht d Hd).
  unfold noAsciiAlnum in Ht. apply negb_true_iff in Ht.
  repeat apply orb_false_iff in Ht as [Ht ?].
  unfold lowerUnit in Hc.
  repeat match goal with H : ?b = false |- _ => rewrite H in Hc; clear H end.
  apply list_elem_of_singleton in Hc as ->.
  unfold isAZ09Space in Hkeep.
  repeat match goal with H : ?b = false |- _ => rewrite H in Hkeep end.
  by destruct (isWhiteSpace d).
Qed.

(** X6.  A text in which no code unit is an ASCII letter, an ASCII digit,
    the Kelvin sign U+212A or the dotted capital I U+0130 (the two
    characters beyond ASCII whose lower case holds an ASCII letter)
    normalises to the empty string: of the utterances of one speaker that
    are made of such code units only, the deduplication keeps the first and
    drops every later one, whatever it says. *)
Theorem deduplicateTranscript_drops_non_ascii
    (l : list TranscriptMessage) (a b : TranscriptMessage) :
  a ∈ l →
  role a = role b →
  Forall (λ c, noAsciiAlnum c = true) (text a) →
  Forall (λ c, noAsciiAlnum c = true) (text b) →
  deduplicateTranscript (l ++ [b]) = deduplicateTranscript l.
Proof.
  intros Ha Hr Hta Htb. rewrite !deduplicateTranscript_keepFirst.
  rewrite keepFirstOccurrences_snoc, decide_True; [by rewrite app_nil_r|].
  apply list_elem_of_fmap. exists a. split; [|done].
  unfold specKey. rewrite <- !normalizedText_spec, Hr.
  by rewrite !normalizedText_noAsciiAlnum.
Qed.

(** Two different utterances in Cyrillic script. *)
Lemma deduplicateTranscript_drops_non_ascii_witness :
  let privet := mkMessage (lit "user") [1055; 1088; 1080; 1074; 1077; 1090] 1000 in
  let spasibo := mkMessage (lit "user") [1057; 1087; 1072; 1089; 1080; 1073; 1086; 33] 9000 in
  deduplicateTranscript ([privet] ++ [spasibo]) = deduplicateTranscript [privet].
Proof.
  intros privet spasibo.
  apply (deduplicateTranscript_drops_non_ascii [privet] privet spasibo).
  - by left.
  - done.
  - by repeat constructor.
  - by repeat constructor.
Defined.

(* ===================================================================== *)
(** * Further properties of the session *)
(* ===================================================================== *)

(** ** Trimming twice *)

Lemma trimStart_snoc_keep l c :
  isWhiteSpace c = false → trimStart (l ++ [c]) = trimStart l ++ [c].
Proof.
  intros Hc. induction l as [|d l IH]; simpl; [by rewrite Hc|].
  by destruct (isWhiteSpace d).
Qed.

Lemma trimEnd_cons_keep c s :
  isWhiteSpace c = false → trimEnd (c :: s) = c :: trimEnd s.
Proof.
  intros Hc. unfold trimEnd.
  by rewrite reverse_cons, trimStart_snoc_keep, reverse_snoc.
Qed.

Lemma trimStart_idemp s : trimStart (trimStart s) = trimStart s.
Proof.
  induction s as [|c s IH]; [done|]. simpl.
  destruct (isWhiteSpace c) eqn:Hc; [done|]. simpl. by rewrite Hc.
Qed.

Lemma trimStart_head_kept s c t :
  trimStart s = c :: t → isWhiteSpace c = false.
Proof.
  induction s as [|d s IH]; [done|]. simpl.
  destruct (isWhiteSpace d) eqn:Hd; [done|]. by intros [= <- _].
Qed.

Lemma trimEnd_idemp s : trimEnd (trimEnd s) = trimEnd s.
Proof. unfold trimEnd. by rewrite reverse_involutive, trimStart_idemp. Qed.

Lemma trim_idemp s : trim (trim s) = trim s.
Proof.
  unfold trim. destruct (trimStart s) as [|c t] eqn:Hs; [done|].
  pose proof (trimStart_head_kept _ _ _ Hs) as Hc.
  rewrite (trimEnd_cons_keep c t Hc). simpl. rewrite Hc.
  by rewrite (trimEnd_cons_keep c _ Hc), trimEnd_idemp.
Qed.

(** ** What the transcript holds *)

Lemma mergeFragment_Forall (P : TranscriptMessage → Prop) r t nowCheck nowStamp prev :
  (∀ r', P (mkMessage r' t nowStamp)) →
  Forall P prev → Forall P (mergeFragment r t nowCheck nowStamp prev).
Proof.
  intros Hfresh Hprev. unfold mergeFragment.
  destruct (last prev) as [lastMessage|];
    [destruct (_ && _)|]; try (apply Forall_app; split; [done|]; by constructor).
  by apply Forall_insert.
Qed.

Lemma handle_transcript_Forall (P : TranscriptMessage → Prop) a st ev :
  (∀ r t stamp, t ≠ [] → trim t = t → P (mkMessage r t stamp)) →
  Forall P (transcript st) → Forall P (transcript (handle a st ev)).
Proof.
  intros Hfresh Hst.
  destruct ev as [now|now| | |m nc ns| | |fulfilled| | |]; simpl; try done.
  - unfold onMessage. destruct (bool_decide _); [|done].
    destruct (falsy _) eqn:Ht; [done|]. simpl.
    apply mergeFragment_Forall; [|done]. intros r'. apply Hfresh.
    + intros Hnil. by rewrite Hnil in Ht.
    + apply trim_idemp.
  - unfold startCall. by destruct (vapi st).
  - unfold startCallSettled. by destruct (vapi st), fulfilled.
  - unfold endCall. by destruct (vapi st).
Qed.

Lemma run_texts_trimmed a evs : ∀ st,
  Forall (λ m, text m ≠ [] ∧ trim (text m) = text m) (transcript st) →
  Forall (λ m, text m ≠ [] ∧ trim (text m) = text m) (transcript (run a st evs)).
Proof.
  induction evs as [|ev evs IH]; intros st Hst; [done|].
  apply IH. by apply handle_transcript_Forall.
Qed.

(** X7.  In every state that a sequence of events reaches from the initial
    state, each message of the transcript has a text that is not empty and
    carries no white space at either end. *)
Theorem transcript_texts_trimmed (a : jsstring) (ready : bool) (evs : list Event) :
  Forall (λ m, text m ≠ [] ∧ trim (text m) = text m)
         (transcript (run a (initialSession ready) evs)).
Proof. apply run_texts_trimmed. constructor. Qed.

(** The ref holds the transcript of the last render, or its first value. *)
Lemma handle_transcriptRef a st ev :
  transcriptRef (handle a st ev) = transcriptRef st
  ∨ transcriptRef (handle a st ev) = transcript st.
Proof.
  destruct ev as [now|now| | |m nc ns| | |fulfilled| | |]; simpl;
    try (by left); try (by right).
  - unfold onMessage. destruct (bool_decide _); [|by left].
    destruct (falsy _); by left.
  - unfold startCall. destruct (vapi st); by left.
  - unfold startCallSettled. destruct (vapi st), fulfilled; by left.
  - unfold endCall. destruct (vapi st); by left.
Qed.

Lemma run_ref_texts_trimmed a evs : ∀ st,
  Forall (λ m, text m ≠ [] ∧ trim (text m) = text m) (transcript st) →
  Forall (λ m, text m ≠ [] ∧ trim (text m) = text m) (transcriptRef st) →
  Forall (λ m, text m ≠ [] ∧ trim (text m) = text m)
         (transcriptRef (run a st evs)).
Proof.
  induction evs as [|ev evs IH]; intros st Hst Href; [done|].
  apply IH; [by apply handle_transcript_Forall|].
  by destruct (handle_transcriptRef a st ev) as [-> | ->].
Qed.

(** The payload of a call-end holds texts that are not empty. *)
Lemma callEndPayload_texts a ready evs now :
  Forall (λ m, text m ≠ [])
    (payload_transcript (callEndPayload a now (run a (initialSession ready) evs))).
Proof.
  simpl. rewrite deduplicateTranscript_keepFirst.
  pose proof (run_ref_texts_trimmed a evs (initialSession ready)
                (Forall_nil_2 _) (Forall_nil_2 _)) as Hall.
  rewrite Forall_forall in Hall. apply Forall_forall. intros m Hm.
  apply Hall. eapply elem_of_sublist; [done|].
  apply keepFirstOccurrences_sublist.
Qed.

Lemma callEnd_effects a now st :
  effects (handle a st (CallEnd now)) =
    effects st ++ [PostTranscripts (callEndPayload a now st); SetTimeout 3000].
Proof. done. Qed.

(** ** The two screens *)

(** X8.  Along every sequence of events from the initial state,
    [isConnected] and [callEnded] are never both set: the end-of-call
    overlay is not shown over a live call. *)
Theorem connected_excludes_callEnded (a : jsstring) (ready : bool) (evs : list Event) :
  isConnected (run a (initialSession ready) evs)
  && callEnded (run a (initialSession ready) evs) = false.
Proof.
  assert (∀ evs st, isConnected st && callEnded st = false →
            isConnected (run a st evs) && callEnded (run a st evs) = false)
    as Hinv.
  { clear evs. induction evs as [|ev evs IH]; intros st Hst; [done|].
    apply IH.
    destruct ev as [now|now| | |m nc ns| | |fulfilled| | |]; simpl; try done.
    - unfold onMessage. destruct (bool_decide _); [|done]. by destruct (falsy _).
    - unfold startCall. by destruct (vapi st).
    - unfold startCallSettled. by destruct (vapi st), fulfilled.
    - unfold endCall. by destruct (vapi st).
    - apply andb_false_r. }
  apply Hinv. by destruct ready.
Qed.

(** ** What is posted at call end *)

Lemma handle_callStartedAtRef a st ev :
  isCallStart ev = false → isCallEnd ev = false →
  callStartedAtRef (handle a st ev) = callStartedAtRef st.
Proof.
  destruct ev as [now|now| | |m nc ns| | |fulfilled| | |]; simpl; try done.
  - intros _ _. unfold onMessage. destruct (bool_decide _); [|done].
    by destruct (falsy _).
  - intros _ _. unfold startCall. by destruct (vapi st).
  - intros _ _. unfold startCallSettled. by destruct (vapi st), fulfilled.
  - intros _ _. unfold endCall. by destruct (vapi st).
Qed.

Lemma run_callStartedAtRef a evs : ∀ st,
  Forall (λ ev, isCallStart ev = false ∧ isCallEnd ev = false) evs →
  callStartedAtRef (run a st evs) = callStartedAtRef st.
Proof.
  induction evs as [|ev evs IH]; intros st Hevs; [done|].
  apply Forall_cons in Hevs as [[Hs He] Hevs]. unfold run in *. simpl.
  rewrite IH by done. by apply handle_callStartedAtRef.
Qed.

(** X9.  The payload posted when a call ends carries the time of the
    call-start that opened it, the time of the call-end, the assistant and
    the deduplicated content of [transcriptRef], which is the transcript as
    of the last render: the whole transcript when a render has just taken
    place.  The start time is then forgotten, so that a call-end that follows
    without a new call-start posts no start time. *)
Theorem callEnd_posts_call_times
    (a : jsstring) (st : Session) (evs : list Event) (t0 t1 t2 : Z) :
  Forall (λ ev, isCallStart ev = false ∧ isCallEnd ev = false) evs →
  let before := run a st (CallStart t0 :: evs) in
  let after := handle a before (CallEnd t1) in
  effects after =
    effects before
      ++ [ PostTranscripts
             {| payload_transcript := deduplicateTranscript (transcriptRef before);
                payload_startedAt := Some t0;
                payload_endedAt := t1;
                payload_assistantId := a |};
           SetTimeout 3000 ]
  ∧ (∀ evs', evs = evs' ++ [Render] → transcriptRef before = transcript before)
  ∧ transcript after = transcript before
  ∧ effects (handle a after (CallEnd t2)) =
      effects after
        ++ [ PostTranscripts
               {| payload_transcript := deduplicateTranscript (transcriptRef before);
                  payload_startedAt := None;
                  payload_endedAt := t2;
                  payload_assistantId := a |};
             SetTimeout 3000 ].
Proof.
  intros Hevs before after.
  assert (callStartedAtRef before = Some t0) as Href.
  { unfold before.
    change (run a st (CallStart t0 :: evs)) with (run a (onCallStart t0 st) evs).
    by rewrite (run_callStartedAtRef a evs (onCallStart t0 st) Hevs). }
  split; [|split; [|split]].
  - subst after. simpl. unfold onCallEnd. simpl. by rewrite Href.
  - intros evs' ->. unfold before, run.
    by rewrite app_comm_cons, foldl_snoc.
  - done.
  - subst after. simpl. unfold onCallEnd. simpl. done.
Qed.

Lemma callEnd_posts_call_times_witness :
  let evs := [ SpeechStart;
               fragmentEvent (lit "assistant") (mkFragment (lit "Hello") 1200 1200);
               SpeechEnd;
               fragmentEvent (lit "user") (mkFragment (lit "Hi!") 4000 4000);
               Render ] in
  let before := run (lit "asst") (initialSession true) (CallStart 1000 :: evs) in
  effects (handle (lit "asst") before (CallEnd 9000)) =
    [ PostTranscripts
        {| payload_transcript :=
             [ mkMessage (lit "assistant") (lit "Hello") 1200;
               mkMessage (lit "user") (lit "Hi!") 4000 ];
           payload_startedAt := Some 1000%Z;
           payload_endedAt := 9000;
           payload_assistantId := lit "asst" |};
      SetTimeout 3000 ].
Proof.
  intros evs before.
  destruct (callEnd_posts_call_times (lit "asst") (initialSession true) evs
              1000 9000 9500 ltac:(by repeat constructor)) as (Heff & _ & _).
  fold before in Heff. rewrite Heff, deduplicateTranscript_keepFirst.
  by vm_compute.
Defined.

(** A fragment handled after the last render is not in the ref yet: a
    call-end that comes before the next render posts the transcript without
    it. *)
Example callEnd_before_render_posts_stale_transcript :
  let st := run (lit "asst") (initialSession true)
              [ StartCall; CallStart 1000;
                fragmentEvent (lit "user") (mkFragment (lit "Hi!") 4000 4000) ] in
  transcript st = [ mkMessage (lit "user") (lit "Hi!") 4000 ]
  ∧ payload_transcript (callEndPayload (lit "asst") 9000 st) = [].
Proof. split; [by vm_compute|]. simpl. by rewrite deduplicateTranscript_keepFirst. Qed.

Lemma handle_posts a st ev :
  filter (λ e, isPostTranscripts e) (effects (handle a st ev)) =
    filter (λ e, isPostTranscripts e) (effects st)
      ++ (if isCallEnd ev
          then [ PostTranscripts
                   {| payload_transcript := deduplicateTranscript (transcriptRef st);
                      payload_startedAt := callStartedAtRef st;
                      payload_endedAt := match ev with CallEnd now => now | _ => 0%Z end;
                      payload_assistantId := a |} ]
          else []).
Proof.
  destruct ev as [now|now| | |m nc ns| | |fulfilled| | |]; simpl;
    rewrite ?app_nil_r; try done.
  - by rewrite filter_app.
  - unfold onMessage. destruct (bool_decide _); [|done]. by destruct (falsy _).
  - unfold startCall. destruct (vapi st); simpl; [|done].
    by rewrite filter_app, app_nil_r.
  - unfold startCallSettled. by destruct (vapi st), fulfilled.
  - unfold endCall. destruct (vapi st); simpl; [|done].
    by rewrite filter_app, app_nil_r.
  - by rewrite filter_app, app_nil_r.
Qed.

(** X10.  The transcript is posted once for every call-end event and by no
    other handler: nothing is posted twice and nothing is retried. *)
Theorem one_post_per_callEnd (a : jsstring) (st : Session) (evs : list Event) :
  length (filter (λ e, isPostTranscripts e) (effects (run a st evs))) =
    (length (filter (λ e, isPostTranscripts e) (effects st))
     + length (filter (λ ev, isCallEnd ev) evs))%nat.
Proof.
  revert st. induction evs as [|ev evs IH]; intros st; simpl; [lia|].
  unfold run in *. simpl. rewrite IH, handle_posts, length_app.
  rewrite filter_cons. destruct ev; simpl; lia.
Qed.

(** ** The distance between neighbouring messages *)

Lemma wellSpaced_snoc l m :
  wellSpaced (l ++ [m]) ↔
    wellSpaced l
    ∧ (∀ p, last l = Some p → role p = role m →
            (3000 ≤ timestamp m - timestamp p)%Z).
Proof.
  unfold wellSpaced. split.
  - intros Hall. split.
    + intros i m1 m2 H1 H2. apply (Hall i); by apply lookup_app_l_Some.
    + intros p [l' ->]%last_Some. apply (Hall (length l')).
      * rewrite <- app_assoc. by apply list_lookup_middle.
      * rewrite lookup_app_r by (rewrite length_app; simpl; lia).
        rewrite length_app. simpl.
        by replace (S (length l') - (length l' + 1))%nat with 0%nat by lia.
  - intros [Hl Hlast] i m1 m2 H1 H2.
    apply lookup_snoc_Some in H2 as [[Hlt H2]|[Hi <-]].
    + apply (Hl i); [|done]. rewrite lookup_app_l in H1 by lia. done.
    + apply Hlast. rewrite last_lookup, <- Hi. simpl.
      rewrite lookup_app_l in H1 by lia. done.
Qed.

Lemma wellSpaced_nil : wellSpaced [].
Proof. by intros i m1 m2 H1. Qed.

(** The invariant: the transcript is well spaced and its last message is
    not younger than the last reading of the clock. *)
Lemma mergeFragment_wellSpaced r txt nowCheck nowStamp t prev :
  (t ≤ nowCheck ≤ nowStamp)%Z →
  wellSpaced prev →
  (∀ m, last prev = Some m → (timestamp m ≤ t)%Z) →
  wellSpaced (mergeFragment r txt nowCheck nowStamp prev)
  ∧ (∀ m, last (mergeFragment r txt nowCheck nowStamp prev) = Some m →
          (timestamp m ≤ nowStamp)%Z).
Proof.
  intros Hclock Hprev Hlast.
  destruct prev as [|m earlier _] using rev_ind.
  { rewrite mergeFragment_append by by left. split.
    - apply (wellSpaced_snoc []). split; [apply wellSpaced_nil | done].
    - intros m [= <-]. simpl. lia. }
  apply wellSpaced_snoc in Hprev as [Hearlier Hm].
  specialize (Hlast m (last_snoc _ _)).
  destruct (decide (role m = r)) as [Hr|Hr];
    [destruct (decide (nowCheck - timestamp m < 3000)%Z) as [Hw|Hw]|].
  - rewrite mergeFragment_merge by done. split.
    + apply wellSpaced_snoc. split; [done|]. simpl. intros p Hp Hrole.
      specialize (Hm p Hp). rewrite Hr in Hm. specialize (Hm Hrole). lia.
    + intros m'. rewrite last_snoc. intros [= <-]. simpl. lia.
  - rewrite mergeFragment_append
      by (right; exists earlier, m; split; [done | right; lia]).
    split.
    + apply wellSpaced_snoc. split; [by apply wellSpaced_snoc|].
      intros p. rewrite last_snoc. intros [= <-] _. simpl. lia.
    + intros m'. rewrite last_snoc. intros [= <-]. simpl. lia.
  - rewrite mergeFragment_append
      by (right; exists earlier, m; split; [done | by left]).
    split.
    + apply wellSpaced_snoc. split; [by apply wellSpaced_snoc|].
      intros p. rewrite last_snoc. intros [= <-] Hrole. simpl in Hrole. done.
    + intros m'. rewrite last_snoc. intros [= <-]. simpl. lia.
Qed.

Lemma run_wellSpaced a evs : ∀ st t,
  monotoneClock t evs →
  wellSpaced (transcript st) →
  (∀ m, last (transcript st) = Some m → (timestamp m ≤ t)%Z) →
  wellSpaced (transcript (run a st evs)).
Proof.
  induction evs as [|ev evs IH]; intros st t Hclock Hst Hlast; [done|].
  unfold run in *. simpl foldl.
  destruct ev as [now|now| | |m nc ns| | |fulfilled| | |]; simpl in Hclock |- *.
  - destruct Hclock as [Hle Hclock]. apply (IH _ now); try done.
    simpl. intros m Hm. specialize (Hlast m Hm). lia.
  - destruct Hclock as [Hle Hclock]. apply (IH _ now); try done.
    simpl. intros m Hm. specialize (Hlast m Hm). lia.
  - by apply (IH _ t).
  - by apply (IH _ t).
  - destruct Hclock as [Hle Hclock]. unfold onMessage.
    assert (∀ m', last (transcript st) = Some m' → (timestamp m' ≤ ns)%Z) as Hlast'.
    { intros m' Hm'. specialize (Hlast m' Hm'). lia. }
    destruct (bool_decide _); [|by apply (IH _ ns)].
    destruct (falsy _); [by apply (IH _ ns)|].
    destruct (mergeFragment_wellSpaced (default [] (msg_role m))
                (trim (default [] (msg_transcript m))) nc ns t (transcript st)
                Hle Hst Hlast) as [Hws Hl].
    by apply (IH _ ns).
  - by apply (IH _ t).
  - unfold startCall. destruct (vapi st); [|by apply (IH _ t)].
    apply (IH _ t); [done | apply wellSpaced_nil | done].
  - unfold startCallSettled. destruct (vapi st), fulfilled; by apply (IH _ t).
  - unfold endCall. destruct (vapi st); by apply (IH _ t).
  - by apply (IH _ t).
  - by apply (IH _ t).
Qed.

(** X11.  When the clock never goes back, two neighbouring messages of one
    speaker are always 3000 ms apart or more: a fragment that arrives
    sooner is merged into the last message and never stands beside it. *)
Theorem same_speaker_messages_apart
    (a : jsstring) (ready : bool) (t0 : Z) (evs : list Event) :
  monotoneClock t0 evs →
  wellSpaced (transcript (run a (initialSession ready) evs)).
Proof.
  intros Hclock.
  apply (run_wellSpaced a evs _ t0); [done | apply wellSpaced_nil | done].
Qed.

Lemma same_speaker_messages_apart_witness :
  wellSpaced
    (transcript
       (run (lit "asst") (initialSession true)
          [ StartCall; CallStart 1000;
            fragmentEvent (lit "user") (mkFragment (lit "I") 1200 1201);
            fragmentEvent (lit "user") (mkFragment (lit "I need") 2000 2001);
            fragmentEvent (lit "user") (mkFragment (lit "Thanks") 6000 6001);
            CallEnd 9000 ])).
Proof.
  apply (same_speaker_messages_apart (lit "asst") true 0).
  simpl. lia.
Defined.

(** ** Without a transport *)

(** X22.  While the component holds no transport ([new Vapi] threw, so that
    no platform handler was registered either), the two buttons do nothing
    at all: no state changes, no call is started or stopped. *)
Theorem buttons_need_transport (a : jsstring) (st : Session) (evs : list Event) :
  vapi st = false →
  Forall (λ ev, isUserAction ev = true) evs →
  run a st evs = st.
Proof.
  intros Hv Hevs. induction Hevs as [|ev evs Hev _ IH]; [done|].
  unfold run in *. simpl.
  assert (handle a st ev = st) as ->; [|done].
  destruct ev; try done; simpl.
  - unfold startCall. by rewrite Hv.
  - unfold startCallSettled. by rewrite Hv.
  - unfold endCall. by rewrite Hv.
Qed.

Lemma buttons_need_transport_witness :
  run (lit "asst") (initialSession false)
    [StartCall; StartCallSettled true; EndCall; StartCall]
  = initialSession false.
Proof.
  apply buttons_need_transport; [done|]. by repeat constructor.
Defined.

(* ===================================================================== *)
(** * Properties of the relay endpoints *)
(* ===================================================================== *)

Import Server.
Local Open Scope parse_scope.

(** ** Parse results *)

Lemma success_parseMap {A B} (f : A → B) r : success (parseMap f r) = success r.
Proof. by destruct r. Qed.

Lemma success_parseBoth {A B} (ra : SafeParse A) (rb : SafeParse B) :
  success (ra <&> rb) = success ra && success rb.
Proof. by destruct ra, rb. Qed.


Lemma success_true {A} (r : SafeParse A) :
  success r = true ↔ ∃ data, r = ParseOk data.
Proof.
  destruct r as [a|issues]; simpl; split; try done.
  - by exists a.
  - by intros [? ?].
Qed.

Lemma parseMap_inv {A B} (f : A → B) r b :
  parseMap f r = ParseOk b → ∃ a, r = ParseOk a ∧ f a = b.
Proof. destruct r as [a|]; [|done]. intros [= <-]. by exists a. Qed.

Lemma parseBoth_inv {A B} (ra : SafeParse A) (rb : SafeParse B) a b :
  ra <&> rb = ParseOk (a, b) → ra = ParseOk a ∧ rb = ParseOk b.
Proof. destruct ra, rb; try done. by intros [= -> ->]. Qed.

(** One invalid element makes the array invalid. *)
Lemma parseAll_imap_fails {A B} (items : list A) : ∀ (f : nat → A → SafeParse B) i x,
  items !! i = Some x →
  success (f i x) = false →
  success (parseAll (imap f items)) = false.
Proof.
  induction items as [|y items IH]; intros f i x Hi Hf; [done|].
  rewrite imap_cons. simpl. rewrite success_parseMap, success_parseBoth.
  destruct i as [|i]; simpl in Hi.
  - injection Hi as ->. by rewrite Hf.
  - rewrite (IH (f ∘ S) i x Hi Hf). apply andb_false_r.
Qed.

(** A valid array is parsed element by element. *)
Lemma parseAll_imap_inv {A B} (items : list A) : ∀ (f : nat → A → SafeParse B) ms,
  parseAll (imap f items) = ParseOk ms →
  Forall2 (λ x m, ∃ i, f i x = ParseOk m) items ms.
Proof.
  induction items as [|y items IH]; intros f ms Hok.
  - injection Hok as <-. constructor.
  - rewrite imap_cons in Hok. simpl in Hok.
    apply parseMap_inv in Hok as ([m ms'] & Hboth & <-).
    apply parseBoth_inv in Hboth as [Hm Hms]. constructor.
    + by exists 0%nat.
    + eapply Forall2_impl; [by apply IH|].
      intros x m' [i Hi]. by exists (S i).
Qed.

Ltac parse_inv :=
  repeat match goal with
    | H : parseMap _ _ = ParseOk _ |- _ =>
        apply parseMap_inv in H as (? & H & ?)
    | H : _ <&> _ = ParseOk ?p |- _ =>
        first [ apply parseBoth_inv in H as [? ?]
              | destruct p; apply parseBoth_inv in H as [? ?] ]
    end.

(** ** Reading properties *)

Lemma string_prop_inv n k path fields s :
  prop (zStringMin n) k path fields = ParseOk s →
  getField (lit k) fields = Some (JStr s) ∧ (n ≤ length s)%nat.
Proof.
  unfold prop, zStringMin. destruct (getField _ _) as [[]|]; try done.
  destruct (Nat.leb_spec n (length s0)); [|done]. by intros [= ->].
Qed.

Lemma number_prop_inv k path fields q :
  prop zNumber k path fields = ParseOk q →
  getField (lit k) fields = Some (JNum q).
Proof.
  unfold prop, zNumber. destruct (getField _ _) as [[]|]; try done.
  by intros [= ->].
Qed.

Lemma array_prop_inv {A} (elem : Schema A) n k path fields ms :
  prop (zArrayMin elem n) k path fields = ParseOk ms →
  ∃ items,
    getField (lit k) fields = Some (JArr items)
    ∧ (n ≤ length items)%nat
    ∧ Forall2 (λ x m, ∃ p, elem p (Some x) = ParseOk m) items ms.
Proof.
  unfold prop, zArrayMin. destruct (getField _ _) as [[| | | |items|]|]; try done.
  intros Hok. exists items. split; [done|].
  apply parseMap_inv in Hok as ([[] ms'] & Hboth & <-).
  apply parseBoth_inv in Hboth as [Hn Hms]. split.
  - by destruct (Nat.leb_spec n (length items)).
  - apply parseAll_imap_inv in Hms. eapply Forall2_impl; [done|].
    intros x m [i Hi]. eauto.
Qed.

Lemma optional_string_pick k path fields o :
  prop (zOptional zString) k path fields = ParseOk o →
  optField k JStr o = pick k fields.
Proof.
  unfold prop, pick. destruct (getField _ _) as [[]|]; try done; simpl.
  - by intros [= <-].
  - by intros [= <-].
Qed.

Lemma optional_number_pick k path fields o :
  prop (zOptional zNumber) k path fields = ParseOk o →
  optField k JNum o = pick k fields.
Proof.
  unfold prop, pick. destruct (getField _ _) as [[]|]; try done; simpl.
  - by intros [= <-].
  - by intros [= <-].
Qed.

Lemma optional_record_pick k path fields o :
  prop (zOptional zRecordAny) k path fields = ParseOk o →
  optField k JObj o =
    match getField (lit k) fields with
    | Some (JObj f) => [ (lit k, JObj (copied f)) ]
    | other => optField k id other
    end.
Proof.
  unfold prop. destruct (getField _ _) as [[]|]; try done; simpl.
  - by intros [= <-].
  - by intros [= <-].
Qed.

(** ** The transcript relay *)

Lemma ForwardedMessage_restrict path x m :
  ForwardedMessageSchema path (Some x) = ParseOk m →
  messageToJSON m = written (restrictMessage x).
Proof.
  unfold ForwardedMessageSchema. destruct x as [| | | | |fields]; try done.
  intros Hok. apply parseMap_inv in Hok as ([[r t] ts] & Hok & <-).
  parse_inv.
  repeat match goal with
    | H : prop (zStringMin _) _ _ _ = _ |- _ => apply string_prop_inv in H as [H _]
    | H : prop zNumber _ _ _ = _ |- _ => apply number_prop_inv in H
    end.
  unfold messageToJSON, restrictMessage, pick. simpl.
  by repeat match goal with H : getField _ _ = _ |- _ => rewrite H; clear H end.
Qed.

(** What validation establishes about an accepted body. *)
Lemma TranscriptForward_inv body payload :
  safeParse TranscriptForwardSchema body = ParseOk payload →
  ∃ fields items,
    body = JObj fields
    ∧ getField (lit "transcript") fields = Some (JArr items)
    ∧ (1 ≤ length items)%nat
    ∧ length (transcript payload) = length items
    ∧ payloadToJSON payload = written (restrictToSchema body).
Proof.
  unfold safeParse, TranscriptForwardSchema.
  destruct body as [| | | | |fields]; try done.
  intros Hok.
  apply parseMap_inv in Hok as ([[[[[c a] s] e] t] md] & Hok & <-).
  parse_inv.
  match goal with
  | H : prop (zArrayMin _ _) _ _ _ = _ |- _ =>
      apply array_prop_inv in H as (items & Htr & Hlen & Hall)
  end.
  exists fields, items. repeat split; try done.
  - simpl. symmetry. by eapply Forall2_length.
  - assert (messageToJSON <$> t = written <$> (restrictMessage <$> items)) as Hmsgs.
    { clear -Hall. induction Hall as [|x m items ms [p Hp] _ IH]; [done|].
      rewrite !fmap_cons, IH. f_equal. by eapply ForwardedMessage_restrict. }
    unfold payloadToJSON, restrictToSchema.
    cbn [callId fwd_assistantId startedAt endedAt transcript metadata].
    rewrite Htr, Hmsgs.
    repeat match goal with
      | H : prop (zOptional zString) _ _ _ = _ |- _ =>
          apply optional_string_pick in H; rewrite <- H; clear H
      | H : prop (zOptional zNumber) _ _ _ = _ |- _ =>
          apply optional_number_pick in H; rewrite <- H; clear H
      | H : prop (zOptional zRecordAny) _ _ _ = _ |- _ =>
          apply optional_record_pick in H; rewrite <- H; clear H
      end.
    cbn [written]. rewrite !fmap_app.
    by destruct c, a, s, e, md.
Qed.

Lemma TranscriptForward_success fields :
  success (safeParse TranscriptForwardSchema (JObj fields)) =
    success (prop (zOptional zString) "callId" [] fields)
    && success (prop (zOptional zString) "assistantId" [] fields)
    && success (prop (zOptional zNumber) "startedAt" [] fields)
    && success (prop (zOptional zNumber) "endedAt" [] fields)
    && success (prop (zArrayMin ForwardedMessageSchema 1) "transcript" [] fields)
    && success (prop (zOptional zRecordAny) "metadata" [] fields).
Proof.
  unfold safeParse, TranscriptForwardSchema.
  by rewrite success_parseMap, !success_parseBoth.
Qed.

Lemma ForwardedMessage_success path fields :
  success (ForwardedMessageSchema path (Some (JObj fields))) =
    success (prop (zStringMin 1) "role" path fields)
    && success (prop (zStringMin 1) "text" path fields)
    && success (prop zNumber "timestamp" path fields).
Proof.
  unfold ForwardedMessageSchema.
  by rewrite success_parseMap, !success_parseBoth.
Qed.

(** A message with an empty role, an empty text or a timestamp that is not a
    number is invalid. *)
Lemma ForwardedMessage_invalid path fields :
  getField (lit "role") fields = Some (JStr [])
  ∨ getField (lit "text") fields = Some (JStr [])
  ∨ (∀ q, getField (lit "timestamp") fields ≠ Some (JNum q)) →
  success (ForwardedMessageSchema path (Some (JObj fields))) = false.
Proof.
  rewrite ForwardedMessage_success. unfold prop.
  intros [Hr|[Ht|Hts]].
  - by rewrite Hr.
  - rewrite Ht. simpl. apply andb_false_intro1, andb_false_r.
  - apply andb_false_intro2. unfold zNumber.
    destruct (getField (lit "timestamp") fields) as [[| |n| | |]|]; try done.
    by destruct (Hts n).
Qed.

(** A missing or empty transcript, or one that holds an invalid message, is
    rejected. *)
Lemma TranscriptForward_invalid fields :
  getField (lit "transcript") fields = None
  ∨ (∃ items,
       getField (lit "transcript") fields = Some (JArr items)
       ∧ (items = []
          ∨ ∃ i entry,
              items !! i = Some (JObj entry)
              ∧ (getField (lit "role") entry = Some (JStr [])
                 ∨ getField (lit "text") entry = Some (JStr [])
                 ∨ (∀ q, getField (lit "timestamp") entry ≠ Some (JNum q))))) →
  success (safeParse TranscriptForwardSchema (JObj fields)) = false.
Proof.
  intros Hcause. rewrite TranscriptForward_success.
  apply andb_false_intro1, andb_false_intro2. unfold prop.
  destruct Hcause as [->|(items & -> & [->|(i & entry & Hi & Hentry)])];
    [done..|].
  unfold zArrayMin. rewrite success_parseMap, success_parseBoth.
  apply andb_false_intro2.
  eapply parseAll_imap_fails; [done|].
  by apply ForwardedMessage_invalid.
Qed.

(** Case analysis along the branches of the transcript handler. *)
Ltac post_cases env fetch body :=
  unfold postTranscripts;
  destruct (safeParse TranscriptForwardSchema body) as [payload|issues];
  [ destruct (Nat.ltb_spec 2000 (length (transcript payload)));
    [ | destruct (fetch _) as [response|];
        [ destruct (fetch_text response); [destruct (ok response)|] | ] ]
  | ].

(** C4.  [POST /api/transcripts] answers 400 with [{error, details}] exactly
    when the body fails the schema, which a missing or empty transcript and
    a message with an empty role, an empty text or a timestamp that is not a
    number all do; 413 when the body is valid and the transcript has more
    than 2000 entries; 200 [{ok: true}] when the webhook answers with an ok
    status; 502 when the webhook answers otherwise or the forwarding
    throws. *)
Theorem postTranscripts_responses
    (env : Env) (fetch : FetchRequest → Outcome FetchResponse) (body : json) :
  let res := (postTranscripts env fetch body).1 in
  let parsed := safeParse TranscriptForwardSchema body in
  (status res = 400%Z ↔ success parsed = false)
  ∧ (∀ issues, parsed = ParseErr issues →
       res = respond 400 (InvalidBody (lit "Invalid payload") issues))
  ∧ (∀ fields, body = JObj fields →
       getField (lit "transcript") fields = None
       ∨ (∃ items,
            getField (lit "transcript") fields = Some (JArr items)
            ∧ (items = []
               ∨ ∃ i entry,
                   items !! i = Some (JObj entry)
                   ∧ (getField (lit "role") entry = Some (JStr [])
                      ∨ getField (lit "text") entry = Some (JStr [])
                      ∨ (∀ q, getField (lit "timestamp") entry ≠ Some (JNum q))))) →
       success parsed = false)
  ∧ (∀ fields items, body = JObj fields →
       getField (lit "transcript") fields = Some (JArr items) →
       success parsed = true →
       (2000 < length items)%nat →
       res = respond 413 (ErrorBody (lit "Transcript too large")))
  ∧ (∀ payload, parsed = ParseOk payload →
       (length (transcript payload) ≤ 2000)%nat →
       let request := mkFetchRequest (N8N_WEBHOOK_URL env) (payloadToJSON payload) in
       (∀ response t,
          fetch request = Fulfilled response →
          ok response = true →
          fetch_text response = Fulfilled t →
          res = respond 200 OkBody)
       ∧ (fetch request = Rejected
          ∨ (∃ response,
               fetch request = Fulfilled response
               ∧ (ok response = false ∨ fetch_text response = Rejected)) →
          res = respond 502 (ErrorBody (lit "Failed to forward transcript")))).
Proof.
  intros res parsed. subst res parsed.
  split; [split|]; [| |split; [|split; [|split]]].
  - post_cases env fetch body; simpl; done.
  - post_cases env fetch body; simpl; done.
  - intros issues Hp. unfold postTranscripts. by rewrite Hp.
  - intros fields -> Hcause. by apply TranscriptForward_invalid.
  - intros fields items -> Htr [payload Hok]%success_true Hlen.
    unfold postTranscripts. rewrite Hok.
    destruct (TranscriptForward_inv _ _ Hok)
      as (fields' & items' & [= <-] & Htr' & _ & Hl & _).
    rewrite Htr in Htr'. injection Htr' as <-.
    destruct (Nat.ltb_spec 2000 (length (transcript payload))); [done|lia].
  - intros payload Hp Hlen request. unfold postTranscripts. rewrite Hp.
    destruct (Nat.ltb_spec 2000 (length (transcript payload))); [lia|].
    fold request. split.
    + intros response t Hf Hok Ht. by rewrite Hf, Ht, Hok.
    + intros [->|(response & -> & [Hok|Ht])]; [done| |].
      * rewrite Hok. by destruct (fetch_text response).
      * by rewrite Ht.
Qed.

(** One valid message and a webhook that answers 200. *)
Lemma postTranscripts_responses_witness :
  let body :=
    JObj [ (lit "assistantId", JStr (lit "asst"));
           (lit "transcript",
            JArr [ JObj [ (lit "role", JStr (lit "user"));
                          (lit "text", JStr (lit "Hi!"));
                          (lit "timestamp", JNum (Finite 1000)) ] ]) ] in
  let env := mkEnv (Some (lit "key")) (Some (lit "https://n8n.example/hook")) in
  let fetch := λ _, Fulfilled (mkFetchResponse true 200 (Fulfilled (lit "ok"))) in
  (postTranscripts env fetch body).1 = respond 200 OkBody.
Proof.
  intros body env fetch.
  destruct (postTranscripts_responses env fetch body) as (_ & _ & _ & _ & Hfwd).
  destruct (safeParse TranscriptForwardSchema body) as [payload|] eqn:Hp;
    [|by vm_compute in Hp].
  assert (length (transcript payload) ≤ 2000)%nat as Hlen.
  { vm_compute in Hp. injection Hp as <-. simpl. lia. }
  destruct (Hfwd payload eq_refl Hlen) as [Hok _].
  exact (Hok (mkFetchResponse true 200 (Fulfilled (lit "ok"))) (lit "ok")
           eq_refl eq_refl eq_refl).
Defined.

(** The size check of the specification's scenario: 2001 valid messages. *)
Example postTranscripts_2001_entries :
  let entry := JObj [ (lit "role", JStr (lit "user"));
                      (lit "text", JStr (lit "Hi!"));
                      (lit "timestamp", JNum (Finite 1000)) ] in
  let body := JObj [ (lit "transcript", JArr (replicate 2001 entry)) ] in
  let env := mkEnv None (Some (lit "https://n8n.example/hook")) in
  postTranscripts env (λ _, Rejected) body
    = (respond 413 (ErrorBody (lit "Transcript too large")), []).
Proof. by vm_compute. Qed.

(** A property that the schema does not name is not forwarded: the webhook
    is sent the parsed data, not the request body. *)
Lemma unknown_field_not_forwarded :
  let entry := JObj [ (lit "role", JStr (lit "user"));
                      (lit "text", JStr (lit "Hi!"));
                      (lit "timestamp", JNum (Finite 1000)) ] in
  let body := JObj [ (lit "transcript", JArr [entry]);
                     (lit "source", JStr (lit "web")) ] in
  let env := mkEnv (Some (lit "key")) (Some (lit "https://n8n.example/hook")) in
  let fetch := λ _, Fulfilled (mkFetchResponse true 200 (Fulfilled (lit "ok"))) in
  postTranscripts env fetch body
    = (respond 200 OkBody,
       [ mkFetchRequest (Some (lit "https://n8n.example/hook"))
           (JObj [ (lit "transcript", JArr [entry]) ]) ])
  ∧ JObj [ (lit "transcript", JArr [entry]) ] ≠ body.
Proof. split; [by vm_compute | by intros [=]]. Qed.

(** C5, amended.  For every body that passes validation and the size check,
    one request is sent to the configured webhook, and its JSON body is the
    received body cut down to the properties that the schema names, at top
    level and in every transcript entry, in the order of the schema, as
    [JSON.stringify] writes it: a number that is not finite is written as
    [null] and negative zero as [0], and a [__proto__] property of
    [metadata] is not copied; properties that the schema does not name are
    not forwarded. *)
Theorem postTranscripts_forwards_parsed_data
    (env : Env) (fetch : FetchRequest → Outcome FetchResponse) (body : json)
    (payload : TranscriptForward) :
  safeParse TranscriptForwardSchema body = ParseOk payload →
  (length (transcript payload) ≤ 2000)%nat →
  (postTranscripts env fetch body).2
    = [ mkFetchRequest (N8N_WEBHOOK_URL env) (written (restrictToSchema body)) ].
Proof.
  intros Hp Hlen.
  destruct (TranscriptForward_inv _ _ Hp) as (_ & _ & _ & _ & _ & _ & <-).
  unfold postTranscripts. rewrite Hp.
  destruct (Nat.ltb_spec 2000 (length (transcript payload))); [lia|].
  destruct (fetch _) as [response|]; [|done].
  destruct (fetch_text response); [|done]. by destruct (ok response).
Qed.

(** A body that holds nothing but schema properties, in the order of the
    shape, and no number but finite ones is forwarded as it is. *)
Lemma postTranscripts_forwards_parsed_data_witness :
  let entry := JObj [ (lit "role", JStr (lit "user"));
                      (lit "text", JStr (lit "Hi!"));
                      (lit "timestamp", JNum (Finite 1000)) ] in
  let body := JObj [ (lit "assistantId", JStr (lit "asst"));
                     (lit "transcript", JArr [entry]) ] in
  let env := mkEnv (Some (lit "key")) (Some (lit "https://n8n.example/hook")) in
  let fetch := λ _, Fulfilled (mkFetchResponse true 200 (Fulfilled (lit "ok"))) in
  (postTranscripts env fetch body).2
    = [ mkFetchRequest (Some (lit "https://n8n.example/hook")) body ].
Proof.
  intros entry body env fetch.
  exact (postTranscripts_forwards_parsed_data env fetch body
           (mkTranscriptForward None (Some (lit "asst")) None None
              [mkForwardedMessage (lit "user") (lit "Hi!") (Finite 1000)] None)
           eq_refl ltac:(simpl; lia)).
Defined.

(** A timestamp beyond the range of doubles is read as an infinity, passes
    [z.number()] and is forwarded as [null]; a [__proto__] property of
    [metadata] is not forwarded. *)
Example nonfinite_number_forwarded_as_null :
  let entry ts := JObj [ (lit "role", JStr (lit "user"));
                         (lit "text", JStr (lit "Hi!"));
                         (lit "timestamp", ts) ] in
  let body := JObj [ (lit "transcript", JArr [entry (JNum (Infinity false))]);
                     (lit "metadata",
                      JObj [ (lit "__proto__", JObj []);
                             (lit "lang", JStr (lit "en")) ]) ] in
  let env := mkEnv (Some (lit "key")) (Some (lit "https://n8n.example/hook")) in
  let fetch := λ _, Fulfilled (mkFetchResponse true 200 (Fulfilled (lit "ok"))) in
  postTranscripts env fetch body
    = (respond 200 OkBody,
       [ mkFetchRequest (Some (lit "https://n8n.example/hook"))
           (JObj [ (lit "transcript", JArr [entry JNull]);
                   (lit "metadata", JObj [ (lit "lang", JStr (lit "en")) ]) ]) ]).
Proof. by vm_compute. Qed.

(** ** The outbound endpoints *)

Lemma normalize_truthy input cc s :
  normalizeToE164Like input cc = Some s → falsy s = false.
Proof.
  unfold normalizeToE164Like.
  repeat match goal with |- context [if ?b then _ else _] => destruct b end;
    try done; by intros [= <-].
Qed.

Lemma OutboundCall_success fields :
  success (safeParse OutboundCallSchema (JObj fields)) =
    success (prop (zStringMin 1) "phoneNumberId" [] fields)
    && success (prop (zStringMin 1) "assistantId" [] fields)
    && success (prop CustomerSchema "customer" [] fields).
Proof.
  unfold safeParse, OutboundCallSchema.
  by rewrite success_parseMap, !success_parseBoth.
Qed.


(** What validation establishes about an accepted call request. *)
Lemma OutboundCall_inv body data :
  safeParse OutboundCallSchema body = ParseOk data →
  ∃ fields c,
    body = JObj fields
    ∧ getField (lit "phoneNumberId") fields = Some (JStr (phoneNumberId data))
    ∧ getField (lit "assistantId") fields = Some (JStr (assistantId data))
    ∧ getField (lit "customer") fields = Some (JObj c)
    ∧ getField (lit "number") c = Some (JStr (number (customer data)))
    ∧ (7 ≤ length (number (customer data)))%nat.
Proof.
  unfold safeParse, OutboundCallSchema.
  destruct body as [| | | | |fields]; try done.
  intros Hok. apply parseMap_inv in Hok as ([[p a] cu] & Hok & <-).
  apply parseBoth_inv in Hok as [Hok Hcu].
  apply parseBoth_inv in Hok as [Hp Ha].
  unfold prop at 1, CustomerSchema in Hcu.
  destruct (getField (lit "customer") fields) as [[| | | | |c]|] eqn:Hc;
    try done.
  apply parseMap_inv in Hcu as ([n nm] & Hcu & <-).
  apply parseBoth_inv in Hcu as [Hn _].
  apply string_prop_inv in Hp as [Hp _].
  apply string_prop_inv in Ha as [Ha _].
  apply string_prop_inv in Hn as [Hn Hlen].
  by exists fields, c.
Qed.



(** C10.  Without the credential both outbound endpoints answer 500 to
    every body, valid or not, and send nothing upstream: the credential is
    checked before the body is looked at, so that no 400 can be returned. *)
Theorem missing_credential_answers_500
    (env : Env)
    (callsCreate : OutboundCall → Outcome VapiCallsCreateResponse)
    (campaignControllerCreate : CampaignCreate → Outcome Campaign)
    (body : json) :
  VAPI_API_KEY env = None ∨ VAPI_API_KEY env = Some [] →
  outboundCall env callsCreate body
    = (respond 500 (ErrorBody (lit "Server not configured for Vapi")), [])
  ∧ outboundCampaign env campaignControllerCreate body
    = (respond 500 (ErrorBody (lit "Server not configured for Vapi")), [])
  ∧ status (outboundCall env callsCreate body).1 ≠ 400%Z
  ∧ status (outboundCampaign env campaignControllerCreate body).1 ≠ 400%Z.
Proof.
  intros Hkey.
  assert (keyMissing env = true) as Hmissing.
  { unfold keyMissing. by destruct Hkey as [->| ->]. }
  unfold outboundCall, outboundCampaign. rewrite Hmissing. by repeat split.
Qed.

(** A body that fails the schema, sent to a server without the key. *)
Lemma missing_credential_answers_500_witness :
  let env := mkEnv None (Some (lit "https://n8n.example/hook")) in
  let body := JObj [ (lit "customer", JObj [ (lit "number", JStr (lit "123")) ]) ] in
  status (outboundCall env (λ _, Rejected) body).1 = 500%Z
  ∧ status (outboundCampaign env (λ _, Rejected) body).1 = 500%Z.
Proof.
  intros env body.
  destruct (missing_credential_answers_500 env (λ _, Rejected) (λ _, Rejected)
              body (or_introl eq_refl)) as (Hcall & Hcampaign & _).
  rewrite Hcall, Hcampaign. by split.
Defined.

(* ===================================================================== *)
(** * Further properties of the relay endpoints *)
(* ===================================================================== *)

(** ** The outbound call *)

Lemma CustomerSchema_inv path v cu :
  CustomerSchema path v = ParseOk cu →
  ∃ c, v = Some (JObj c)
       ∧ getField (lit "number") c = Some (JStr (number cu))
       ∧ (7 ≤ length (number cu))%nat
       ∧ optField "name" JStr (name cu) = pick "name" c.
Proof.
  unfold CustomerSchema. destruct v as [[| | | | |c]|]; try done.
  intros Hok. apply parseMap_inv in Hok as ([n nm] & Hok & <-).
  apply parseBoth_inv in Hok as [Hn Hnm].
  apply string_prop_inv in Hn as [Hn Hlen].
  apply optional_string_pick in Hnm. by exists c.
Qed.

Lemma CustomerSchema_complete path c n :
  getField (lit "number") c = Some (JStr n) →
  (7 ≤ length n)%nat →
  (getField (lit "name") c = None ∨ ∃ s, getField (lit "name") c = Some (JStr s)) →
  success (CustomerSchema path (Some (JObj c))) = true.
Proof.
  intros Hn Hlen Hname. unfold CustomerSchema.
  rewrite success_parseMap, success_parseBoth. unfold prop. rewrite Hn.
  unfold zStringMin at 1. destruct (Nat.leb_spec 7 (length n)); [|lia].
  by destruct Hname as [->|[s ->]].
Qed.

(** X12.  The call schema accepts exactly the objects that hold a non-empty
    string [phoneNumberId], a non-empty string [assistantId] and an object
    [customer] whose [number] is a string of seven characters or more and
    whose [name] is absent or a string. *)
Theorem OutboundCallSchema_accepts (body : json) :
  success (safeParse OutboundCallSchema body) = true ↔
  ∃ fields c p a n,
    body = JObj fields
    ∧ getField (lit "phoneNumberId") fields = Some (JStr p) ∧ p ≠ []
    ∧ getField (lit "assistantId") fields = Some (JStr a) ∧ a ≠ []
    ∧ getField (lit "customer") fields = Some (JObj c)
    ∧ getField (lit "number") c = Some (JStr n) ∧ (7 ≤ length n)%nat
    ∧ (getField (lit "name") c = None
       ∨ ∃ s, getField (lit "name") c = Some (JStr s)).
Proof.
  split.
  - intros [data Hok]%success_true.
    unfold safeParse, OutboundCallSchema in Hok.
    destruct body as [| | | | |fields]; try done.
    apply parseMap_inv in Hok as ([[p a] cu] & Hok & <-).
    apply parseBoth_inv in Hok as [Hok Hcu].
    apply parseBoth_inv in Hok as [Hp Ha].
    apply string_prop_inv in Hp as [Hp Hpl].
    apply string_prop_inv in Ha as [Ha Hal].
    apply CustomerSchema_inv in Hcu as (c & Hc & Hn & Hlen & Hname).
    exists fields, c, p, a, (number cu).
    repeat (split; [done || (intros ->; simpl in *; lia)|]).
    unfold pick in Hname.
    destruct (getField (lit "name") c) as [v|]; [right|by left].
    destruct (name cu); simpl in Hname; [|done].
    injection Hname as <-. by eexists.
  - intros (fields & c & p & a & n & -> & Hp & Hpn & Ha & Han & Hc & Hn & Hlen & Hname).
    rewrite OutboundCall_success. unfold prop at 1 2 3. rewrite Hp, Ha, Hc.
    rewrite (CustomerSchema_complete _ c n Hn Hlen Hname).
    unfold zStringMin. by destruct p, a.
Qed.

Lemma OutboundCall_inv_name body data :
  safeParse OutboundCallSchema body = ParseOk data →
  ∃ fields c,
    body = JObj fields
    ∧ getField (lit "customer") fields = Some (JObj c)
    ∧ optField "name" JStr (name (customer data)) = pick "name" c.
Proof.
  unfold safeParse, OutboundCallSchema.
  destruct body as [| | | | |fields]; try done.
  intros Hok. apply parseMap_inv in Hok as ([[p a] cu] & Hok & <-).
  apply parseBoth_inv in Hok as [_ Hcu].
  apply CustomerSchema_inv in Hcu as (c & Hc & _ & _ & Hname).
  by exists fields, c.
Qed.

(** X13.  The outbound-call handler calls the platform at most once, and
    does so exactly when it answers 201 or 502; with 400 or 500 nothing
    leaves the server.  The number it sends is a [+] followed by digits
    only, and the two identifiers and the customer's name are those of the
    body. *)
Theorem outboundCall_upstream
    (env : Env) (callsCreate : OutboundCall → Outcome VapiCallsCreateResponse)
    (body : json) :
  let res := (outboundCall env callsCreate body).1 in
  let sent := (outboundCall env callsCreate body).2 in
  (sent = [] ∧ (status res = 400%Z ∨ status res = 500%Z))
  ∨ (∃ request ds fields c,
       sent = [request]
       ∧ (status res = 201%Z ∨ status res = 502%Z)
       ∧ number (customer request) = 43 :: ds
       ∧ ds ≠ [] ∧ Forall (λ d, isDigit d = true) ds
       ∧ body = JObj fields
       ∧ getField (lit "phoneNumberId") fields = Some (JStr (phoneNumberId request))
       ∧ getField (lit "assistantId") fields = Some (JStr (assistantId request))
       ∧ getField (lit "customer") fields = Some (JObj c)
       ∧ optField "name" JStr (name (customer request)) = pick "name" c).
Proof.
  intros res sent. subst res sent. unfold outboundCall.
  destruct (keyMissing env); [left; split; [done|by right]|].
  destruct (safeParse OutboundCallSchema body) as [data|issues] eqn:Hp;
    [|left; split; [done|by left]].
  destruct (normalizeToE164Like _ _) as [sanitized|] eqn:Hn;
    [|left; split; [done|by left]].
  rewrite (normalize_truthy _ _ _ Hn).
  apply normalize_result_shape in Hn as (ds & -> & Hne & Hds & _);
    [|by repeat constructor].
  destruct (OutboundCall_inv _ _ Hp) as (fields & c & -> & Hpn & Ha & Hc & _ & _).
  destruct (OutboundCall_inv_name _ _ Hp) as (fields' & c' & [= <-] & Hc' & Hname).
  rewrite Hc in Hc'. injection Hc' as <-.
  right.
  eexists _, ds, fields, c.
  destruct (callsCreate _); simpl;
    (split; [done|]); (split; [by (left + right)|]); by repeat split.
Qed.


(** ** The outbound campaign *)

Lemma OutboundCampaign_success fields :
  success (safeParse OutboundCampaignSchema (JObj fields)) =
    success (prop (zStringMin 1) "phoneNumberId" [] fields)
    && success (prop (zStringMin 1) "assistantId" [] fields)
    && success (prop (zDefault (zStringMin 1) (JStr (lit "Web Campaign")))
                     "name" [] fields)
    && success (prop CustomerSchema "customer" [] fields).
Proof.
  unfold safeParse, OutboundCampaignSchema.
  by rewrite success_parseMap, !success_parseBoth.
Qed.

(** X14.  The campaign schema is the call schema with one more property: it
    accepts a body exactly when the call schema accepts it and [name] is
    absent or a non-empty string. *)
Theorem OutboundCampaignSchema_extends_call (fields : list (jsstring * json)) :
  success (safeParse OutboundCampaignSchema (JObj fields)) =
    success (safeParse OutboundCallSchema (JObj fields))
    && match getField (lit "name") fields with
       | None => true
       | Some (JStr s) => negb (falsy s)
       | Some _ => false
       end.
Proof.
  rewrite OutboundCampaign_success, OutboundCall_success.
  set (p := success (prop (zStringMin 1) "phoneNumberId" [] fields)).
  set (a := success (prop (zStringMin 1) "assistantId" [] fields)).
  set (c := success (prop CustomerSchema "customer" [] fields)).
  assert (success (prop (zDefault (zStringMin 1) (JStr (lit "Web Campaign")))
                        "name" [] fields)
          = match getField (lit "name") fields with
            | None => true
            | Some (JStr s) => negb (falsy s)
            | Some _ => false
            end) as ->.
  { unfold prop, zDefault.
    destruct (getField (lit "name") fields) as [[| | |s| |]|]; try done.
    by destruct s. }
  by destruct p, a, c, (getField (lit "name") fields) as [[| | |[]| |]|].
Qed.

Lemma OutboundCampaign_inv body data :
  safeParse OutboundCampaignSchema body = ParseOk data →
  ∃ fields c,
    body = JObj fields
    ∧ getField (lit "phoneNumberId") fields = Some (JStr (campaign_phoneNumberId data))
    ∧ getField (lit "assistantId") fields = Some (JStr (campaign_assistantId data))
    ∧ (getField (lit "name") fields = Some (JStr (campaign_name data))
       ∨ getField (lit "name") fields = None
         ∧ campaign_name data = lit "Web Campaign")
    ∧ getField (lit "customer") fields = Some (JObj c)
    ∧ getField (lit "number") c = Some (JStr (number (campaign_customer data)))
    ∧ optField "name" JStr (name (campaign_customer data)) = pick "name" c.
Proof.
  unfold safeParse, OutboundCampaignSchema.
  destruct body as [| | | | |fields]; try done.
  intros Hok. apply parseMap_inv in Hok as ([[[p a] nm] cu] & Hok & <-).
  apply parseBoth_inv in Hok as [Hok Hcu].
  apply parseBoth_inv in Hok as [Hok Hnm].
  apply parseBoth_inv in Hok as [Hp Ha].
  apply string_prop_inv in Hp as [Hp _].
  apply string_prop_inv in Ha as [Ha _].
  apply CustomerSchema_inv in Hcu as (c & Hc & Hn & _ & Hname).
  exists fields, c. simpl. repeat (split; [done|]).
  split; [|by repeat split].
  unfold prop, zDefault in Hnm.
  destruct (getField (lit "name") fields) as [[| | |s| |]|] eqn:Hf; try done.
  - left. unfold zStringMin in Hnm.
    destruct (Nat.leb_spec 1 (length s)); [|done]. by injection Hnm as ->.
  - right. split; [done|]. by injection Hnm as <-.
Qed.

(** X15.  With the credential configured, a body that passes the campaign
    schema and whose number can be normalised makes the handler create one
    campaign: it is named as the body says, or [Web Campaign] when the body
    gives no name, carries the two identifiers of the body, and has the one
    customer with the normalised number.  The handler answers 201 with the
    identifier of the created campaign, and 502 when the creation throws;
    when the number cannot be normalised it answers 400 and creates
    nothing. *)
Theorem outboundCampaign_creates_one_campaign
    (env : Env) (campaignControllerCreate : CampaignCreate → Outcome Campaign)
    (body : json) (data : OutboundCampaign) :
  keyMissing env = false →
  safeParse OutboundCampaignSchema body = ParseOk data →
  let normalized :=
    normalizeToE164Like (number (campaign_customer data)) defaultCountryCode in
  (normalized = None →
     outboundCampaign env campaignControllerCreate body
       = (respond 400 (ErrorBody (lit "Invalid customer number")), []))
  ∧ (∀ sanitizedNumber, normalized = Some sanitizedNumber →
       ∃ fields request,
         body = JObj fields
         ∧ (outboundCampaign env campaignControllerCreate body).2 = [request]
         ∧ create_customers request
           = [ mkCustomer sanitizedNumber (name (campaign_customer data)) ]
         ∧ getField (lit "phoneNumberId") fields
           = Some (JStr (create_phoneNumberId request))
         ∧ getField (lit "assistantId") fields
           = Some (JStr (create_assistantId request))
         ∧ (getField (lit "name") fields = Some (JStr (create_name request))
            ∨ getField (lit "name") fields = None
              ∧ create_name request = lit "Web Campaign")
         ∧ (∀ campaign,
              campaignControllerCreate request = Fulfilled campaign →
              (outboundCampaign env campaignControllerCreate body).1
                = respond 201 (CampaignBody (campaign_id campaign) campaign))
         ∧ (campaignControllerCreate request = Rejected →
              (outboundCampaign env campaignControllerCreate body).1
                = respond 502 (ErrorBody (lit "Failed to create campaign")))).
Proof.
  intros Hkey Hp normalized. subst normalized.
  unfold outboundCampaign. rewrite Hkey, Hp. split.
  - by intros ->.
  - intros sanitizedNumber Hn. rewrite Hn, (normalize_truthy _ _ _ Hn).
    destruct (OutboundCampaign_inv _ _ Hp)
      as (fields & c & -> & Hpn & Ha & Hname & _).
    exists fields. eexists. split; [done|].
    split.
    { by destruct (campaignControllerCreate _). }
    simpl. repeat (split; [done|]).
    split; [intros campaign Hc | intros Hc]; by rewrite Hc.
Qed.

(** A body without a name, for a platform that creates the campaign. *)
Lemma outboundCampaign_creates_one_campaign_witness :
  let body :=
    JObj [ (lit "phoneNumberId", JStr (lit "pn_1"));
           (lit "assistantId", JStr (lit "asst"));
           (lit "customer", JObj [ (lit "number", JStr (lit "555-123-4567"));
                                   (lit "name", JStr (lit "Ada")) ]) ] in
  let env := mkEnv (Some (lit "key")) None in
  let create := λ _, Fulfilled (mkCampaign (lit "camp_1") []) in
  outboundCampaign env create body
    = (respond 201 (CampaignBody (lit "camp_1") (mkCampaign (lit "camp_1") [])),
       [ mkCampaignCreate (lit "Web Campaign") (lit "pn_1") (lit "asst")
           [ mkCustomer (lit "+15551234567") (Some (lit "Ada")) ] ]).
Proof.
  intros body env create.
  destruct (outboundCampaign_creates_one_campaign env create body
              (mkOutboundCampaign (lit "pn_1") (lit "asst") (lit "Web Campaign")
                 (mkCustomer (lit "555-123-4567") (Some (lit "Ada"))))
              eq_refl eq_refl) as [_ Hsome].
  destruct (Hsome (lit "+15551234567") eq_refl)
    as (fields & request & _ & Hsent & _ & _ & _ & _ & Hok & _).
  apply injective_projections; [|done].
  by apply (Hok (mkCampaign (lit "camp_1") [])).
Defined.

(** ** The transcript relay *)

(** X16.  The transcript handler answers 200, 400, 413 or 502 and nothing
    else; it calls the webhook at most once, and does so exactly when it
    answers 200 or 502: a body that is refused never reaches the webhook.
    What the webhook is sent is the body cut down to the properties of the
    schema, as [JSON.stringify] writes it. *)
Theorem postTranscripts_upstream
    (env : Env) (fetch : FetchRequest → Outcome FetchResponse) (body : json) :
  let res := (postTranscripts env fetch body).1 in
  let sent := (postTranscripts env fetch body).2 in
  (sent = [] ∧ (status res = 400%Z ∨ status res = 413%Z))
  ∨ (∃ request,
       sent = [request]
       ∧ fetch_url request = N8N_WEBHOOK_URL env
       ∧ fetch_body request = written (restrictToSchema body)
       ∧ (status res = 200%Z ∨ status res = 502%Z)).
Proof.
  intros res sent. subst res sent. unfold postTranscripts.
  destruct (safeParse TranscriptForwardSchema body) as [payload|issues] eqn:Hp;
    [|left; split; [done|by left]].
  destruct (Nat.ltb_spec 2000 (length (transcript payload)));
    [left; split; [done|by right]|].
  destruct (TranscriptForward_inv _ _ Hp) as (_ & _ & _ & _ & _ & _ & <-).
  right. eexists.
  destruct (fetch _) as [response|];
    [destruct (fetch_text response); [destruct (ok response)|]|]; simpl;
    (split; [done|]); (split; [done|]); (split; [done|]); by (left + right).
Qed.

(** ** Writing a payload and reading it back *)

Lemma parseAll_imap_fmap {A B} (g : B → A) (ms : list B) :
  ∀ f : nat → A → SafeParse B,
    (∀ i m, m ∈ ms → f i (g m) = ParseOk m) →
    parseAll (imap f (g <$> ms)) = ParseOk ms.
Proof.
  induction ms as [|m ms IH]; intros f Hf; [done|].
  rewrite fmap_cons, imap_cons. simpl.
  rewrite (Hf 0%nat m) by by left.
  rewrite (IH (f ∘ S)); [done|]. intros i m' Hm'. apply Hf. by right.
Qed.

Lemma ForwardedMessage_roundtrip path m :
  fwd_role m ≠ [] → fwd_text m ≠ [] → isFinite (fwd_timestamp m) →
  ForwardedMessageSchema path (Some (messageToJSON m)) = ParseOk m.
Proof.
  destruct m as [[|c r] [|d t] [q| |b]]; intros Hr Ht Hq; done || by vm_compute.
Qed.

Lemma transcript_array_roundtrip path ms :
  ms ≠ [] →
  Forall (λ m, fwd_role m ≠ [] ∧ fwd_text m ≠ []) ms →
  Forall (λ m, isFinite (fwd_timestamp m)) ms →
  zArrayMin ForwardedMessageSchema 1 path (Some (JArr (messageToJSON <$> ms)))
    = ParseOk ms.
Proof.
  intros Hne Hms Hfin. unfold zArrayMin.
  rewrite parseAll_imap_fmap.
  - rewrite length_fmap. by destruct ms.
  - intros i m Hm. rewrite Forall_forall in Hms, Hfin.
    destruct (Hms m Hm). apply ForwardedMessage_roundtrip; auto.
Qed.




(** ** From the browser to the webhook *)

Lemma messageBody_relayed (ms : list TranscriptMessage) :
  messageBody <$> ms = messageToJSON <$> (relayedMessage <$> ms).
Proof. by rewrite <- list_fmap_compose. Qed.

Lemma callEndBody_parses p :
  payload_transcript p ≠ [] →
  Forall (λ m, role m ≠ [] ∧ text m ≠ []) (payload_transcript p) →
  safeParse TranscriptForwardSchema (callEndBody p) = ParseOk (relayedPayload p).
Proof.
  intros Hne Hvalid.
  assert (zArrayMin ForwardedMessageSchema 1 [Key (lit "transcript")]
            (Some (JArr (messageBody <$> payload_transcript p)))
          = ParseOk (relayedMessage <$> payload_transcript p)) as Htr.
  { rewrite messageBody_relayed. apply transcript_array_roundtrip.
    - by destruct (payload_transcript p).
    - apply Forall_fmap. eapply Forall_impl; [done|]. by intros m [? ?].
    - apply Forall_fmap, Forall_true. by intros m. }
  destruct p as [t s e a].
  unfold safeParse, TranscriptForwardSchema, callEndBody, relayedPayload, prop.
  cbn [payload_transcript payload_startedAt payload_endedAt payload_assistantId] in *.
  set (arr := zArrayMin ForwardedMessageSchema 1) in *.
  set (v := JArr (messageBody <$> t)) in *.
  set (ms := relayedMessage <$> t) in *.
  clearbody arr v ms.
  destruct s; vm_compute; vm_compute in Htr; by rewrite Htr.
Qed.

Lemma callEndBody_rejected p :
  payload_transcript p = []
  ∨ Exists (λ m, role m = [] ∨ text m = []) (payload_transcript p) →
  success (safeParse TranscriptForwardSchema (callEndBody p)) = false.
Proof.
  intros Hbad. unfold callEndBody. apply TranscriptForward_invalid. right.
  exists (messageBody <$> payload_transcript p). split; [done|].
  destruct Hbad as [->|Hex]; [by left|]. right.
  apply Exists_exists in Hex as (m & Hm & Hempty).
  apply list_elem_of_lookup in Hm as [i Hi].
  exists i. eexists. split.
  - rewrite list_lookup_fmap, Hi. done.
  - destruct Hempty as [Hr|Ht]; [left | right; left]; simpl.
    + by rewrite Hr.
    + by rewrite Ht.
Qed.

(** X18.  The relay accepts the body that the browser posts at call end
    exactly when its transcript holds a message and no message has an empty
    role or an empty text; what it then reads is the payload of the browser,
    field by field. *)
Theorem callEndBody_accepted (p : TranscriptPayload) :
  (success (safeParse TranscriptForwardSchema (callEndBody p)) = true ↔
     payload_transcript p ≠ []
     ∧ Forall (λ m, role m ≠ [] ∧ text m ≠ []) (payload_transcript p))
  ∧ (∀ data, safeParse TranscriptForwardSchema (callEndBody p) = ParseOk data →
       data = relayedPayload p).
Proof.
  assert (success (safeParse TranscriptForwardSchema (callEndBody p)) = true →
          payload_transcript p ≠ []
          ∧ Forall (λ m, role m ≠ [] ∧ text m ≠ []) (payload_transcript p)) as Hok.
  { intros Hs. split.
    - intros Hnil. by rewrite callEndBody_rejected in Hs by by left.
    - destruct (decide (Forall (λ m, role m ≠ [] ∧ text m ≠ []) (payload_transcript p)))
        as [|Hnot]; [done|].
      rewrite callEndBody_rejected in Hs; [done|]. right.
      apply not_Forall_Exists in Hnot; [|apply _].
      eapply Exists_impl; [done|]. intros m Hm. simpl in Hm.
      destruct (decide (role m = [])); [by left|].
      destruct (decide (text m = [])); [by right|]. by destruct Hm. }
  split; [split; [done|]|].
  - intros [Hne Hvalid]. by rewrite callEndBody_parses.
  - intros data Hdata.
    destruct Hok as [Hne Hvalid]; [by rewrite Hdata|].
    rewrite callEndBody_parses in Hdata by done. by injection Hdata.
Qed.

(** X19.  In every state that the session reaches, the body posted at call
    end, which carries the deduplicated content of [transcriptRef], is
    accepted by the schema of the relay exactly when that content holds a
    message and every message names its speaker; when it holds none, as for
    a call that ends before anything was said, the handler of the relay
    answers 400. *)
Theorem callEnd_post_verdict
    (a : jsstring) (ready : bool) (evs : list Event) (now : Z)
    (env : Env) (fetch : FetchRequest → Outcome FetchResponse) :
  let p := callEndPayload a now (run a (initialSession ready) evs) in
  (success (safeParse TranscriptForwardSchema (callEndBody p)) = true ↔
     payload_transcript p ≠ [] ∧ Forall (λ m, role m ≠ []) (payload_transcript p))
  ∧ (payload_transcript p = [] →
     status (postTranscripts env fetch (callEndBody p)).1 = 400%Z).
Proof.
  intros p.
  pose proof (callEndPayload_texts a ready evs now) as Htexts. fold p in Htexts.
  split; [split|].
  - intros Hs.
    assert (payload_transcript p ≠ []
            ∧ Forall (λ m, role m ≠ [] ∧ text m ≠ []) (payload_transcript p))
      as [Hne Hvalid].
    { split.
      - intros Hnil. by rewrite callEndBody_rejected in Hs by by left.
      - rewrite Forall_forall in Htexts. apply Forall_forall. intros m Hm.
        split; [|by apply Htexts]. intros Hr.
        rewrite callEndBody_rejected in Hs; [done|]. right.
        apply Exists_exists. exists m. split; [done|by left]. }
    split; [done|]. eapply Forall_impl; [done|]. by intros m [? ?].
  - intros [Hne Hroles]. rewrite callEndBody_parses; [done..|].
    rewrite Forall_forall in Htexts, Hroles. apply Forall_forall.
    intros m Hm. split; [by apply Hroles | by apply Htexts].
  - intros Hnil. unfold postTranscripts.
    pose proof (callEndBody_rejected p (or_introl Hnil)) as Hrej.
    by destruct (safeParse TranscriptForwardSchema (callEndBody p)).
Qed.

(** X20.  Nothing of an accepted call-end body is lost on the way.  For a
    call-end body with a message, no empty role or text and at most 2000
    messages: when the request entity is within the limit of [express.json],
    one request goes to the webhook, and its body has the properties of the
    body received, each with the value received; when the entity is beyond
    the limit, the answer is 500 and the webhook is not called. *)
Theorem callEnd_body_forwarded_whole
    (nodeEnv : option jsstring) (env : Env)
    (fetch : FetchRequest → Outcome FetchResponse)
    (entityLength : N) (p : TranscriptPayload) :
  payload_transcript p ≠ [] →
  Forall (λ m, role m ≠ [] ∧ text m ≠ []) (payload_transcript p) →
  (length (payload_transcript p) ≤ 2000)%nat →
  (entityLength ≤ bodyLimit →
   ∃ request,
     (transcriptsRoute nodeEnv env fetch entityLength (callEndBody p)).2 = [request]
     ∧ fetch_url request = N8N_WEBHOOK_URL env
     ∧ ∀ k, getField k (ownProperties (fetch_body request))
            = getField k (ownProperties (callEndBody p)))
  ∧ (bodyLimit < entityLength →
     status (transcriptsRoute nodeEnv env fetch entityLength (callEndBody p)).1
       = 500%Z
     ∧ (transcriptsRoute nodeEnv env fetch entityLength (callEndBody p)).2 = []).
Proof.
  intros Hne Hvalid Hlen. split.
  - intros Hfits. unfold transcriptsRoute.
    rewrite (proj2 (N.ltb_ge _ _)) by done.
    pose proof (callEndBody_parses p Hne Hvalid) as Hparse.
    exists (mkFetchRequest (N8N_WEBHOOK_URL env) (payloadToJSON (relayedPayload p))).
    split; [|split; [done|]].
    + unfold postTranscripts. rewrite Hparse.
      destruct (Nat.ltb_spec 2000 (length (transcript (relayedPayload p)))) as [Hgt|_].
      { simpl in Hgt. rewrite length_fmap in Hgt. lia. }
      destruct (fetch _) as [response|]; [|done].
      destruct (fetch_text response); [|done]. by destruct (ok response).
    + intros k. destruct p as [t s e a].
      unfold callEndBody, payloadToJSON, relayedPayload. simpl.
      rewrite <- messageBody_relayed.
      destruct s; simpl; repeat case_decide; try congruence;
        subst k; exfalso;
        match goal with H : lit _ = lit _ |- _ => by vm_compute in H end.
  - intros Hbig. unfold transcriptsRoute.
    by rewrite (proj2 (N.ltb_lt _ _)) by done.
Qed.

Lemma callEnd_body_forwarded_whole_witness :
  let p :=
    {| payload_transcript := [ mkMessage (lit "user") (lit "Hi!") 1200 ];
       payload_startedAt := Some 1000%Z;
       payload_endedAt := 9000;
       payload_assistantId := lit "asst" |} in
  ∃ request,
    (transcriptsRoute None (mkEnv None (Some (lit "https://n8n.example/hook")))
       (λ _, Rejected) 117 (callEndBody p)).2 = [request]
    ∧ fetch_url request = Some (lit "https://n8n.example/hook")
    ∧ ∀ k, getField k (ownProperties (fetch_body request))
           = getField k (ownProperties (callEndBody p)).
Proof.
  intros p.
  refine (proj1 (callEnd_body_forwarded_whole None
                   (mkEnv None (Some (lit "https://n8n.example/hook")))
                   (λ _, Rejected) 117 p _ _ _) _).
  - done.
  - by repeat constructor.
  - simpl. lia.
  - by vm_compute.
Defined.

(** The same body in an entity of two million bytes is answered 500, and
    the webhook is not called. *)
Example transcriptsRoute_entity_too_large :
  let p :=
    {| payload_transcript := [ mkMessage (lit "user") (lit "Hi!") 1200 ];
       payload_startedAt := Some 1000%Z;
       payload_endedAt := 9000;
       payload_assistantId := lit "asst" |} in
  transcriptsRoute (Some (lit "production"))
      (mkEnv None (Some (lit "https://n8n.example/hook")))
      (λ _, Rejected) 2000000 (callEndBody p)
    = (respond 500 (ErrorBody (lit "Internal Server Error")), []).
Proof. by vm_compute. Qed.

(** ** The bodies that the transcript schema accepts *)

Lemma success_parseAll_imap {A B} (items : list A) :
  ∀ f : nat → A → SafeParse B,
    success (parseAll (imap f items)) = true ↔
    ∀ i x, items !! i = Some x → success (f i x) = true.
Proof.
  induction items as [|y items IH]; intros f.
  { split; [by intros _ i x | done]. }
  rewrite imap_cons. simpl.
  rewrite success_parseMap, success_parseBoth, andb_true_iff, IH. split.
  - intros [Hy Hrest] [|i] x Hx; simpl in Hx.
    + by injection Hx as <-.
    + by apply (Hrest i).
  - intros Hall. split; [by apply (Hall 0%nat)|].
    intros i x Hx. by apply (Hall (S i)).
Qed.

Lemma optional_string_success k path fields :
  success (prop (zOptional zString) k path fields) = true ↔
  getField (lit k) fields = None ∨ ∃ s, getField (lit k) fields = Some (JStr s).
Proof.
  unfold prop. destruct (getField (lit k) fields) as [[| | |s| |]|]; simpl;
    split; try done; try (by intros [|[? ?]]); try (by left).
  intros _. right. by exists s.
Qed.

Lemma optional_number_success k path fields :
  success (prop (zOptional zNumber) k path fields) = true ↔
  getField (lit k) fields = None ∨ ∃ q, getField (lit k) fields = Some (JNum q).
Proof.
  unfold prop. destruct (getField (lit k) fields) as [[| |q| | |]|]; simpl;
    split; try done; try (by intros [|[? ?]]); try (by left).
  intros _. right. by exists q.
Qed.

Lemma optional_record_success k path fields :
  success (prop (zOptional zRecordAny) k path fields) = true ↔
  getField (lit k) fields = None ∨ ∃ o, getField (lit k) fields = Some (JObj o).
Proof.
  unfold prop. destruct (getField (lit k) fields) as [[| | | | |o]|]; simpl;
    split; try done; try (by intros [|[? ?]]); try (by left).
  intros _. right. by exists o.
Qed.

Lemma ForwardedMessage_accepts path x :
  success (ForwardedMessageSchema path (Some x)) = true ↔
  ∃ e r t q,
    x = JObj e
    ∧ getField (lit "role") e = Some (JStr r) ∧ r ≠ []
    ∧ getField (lit "text") e = Some (JStr t) ∧ t ≠ []
    ∧ getField (lit "timestamp") e = Some (JNum q).
Proof.
  split.
  - intros [m Hok]%success_true. unfold ForwardedMessageSchema in Hok.
    destruct x as [| | | | |e]; try done.
    apply parseMap_inv in Hok as ([[r t] q] & Hok & <-).
    apply parseBoth_inv in Hok as [Hok Hq].
    apply parseBoth_inv in Hok as [Hr Ht].
    apply string_prop_inv in Hr as [Hr Hrl].
    apply string_prop_inv in Ht as [Ht Htl].
    apply number_prop_inv in Hq.
    exists e, r, t, q.
    repeat (split; [done || (intros ->; simpl in *; lia)|]). done.
  - intros (e & r & t & q & -> & Hr & Hrn & Ht & Htn & Hq).
    rewrite ForwardedMessage_success. unfold prop. rewrite Hr, Ht, Hq.
    by destruct r, t.
Qed.

(** X21.  The transcript schema accepts exactly the objects whose
    [transcript] is an array of one or more objects, each with a non-empty
    string [role], a non-empty string [text] and a number [timestamp], and
    whose [callId] and [assistantId] are absent or strings, [startedAt] and
    [endedAt] absent or numbers, and [metadata] absent or an object. *)
Theorem TranscriptForwardSchema_accepts (body : json) :
  success (safeParse TranscriptForwardSchema body) = true ↔
  ∃ fields items,
    body = JObj fields
    ∧ (getField (lit "callId") fields = None
       ∨ ∃ s, getField (lit "callId") fields = Some (JStr s))
    ∧ (getField (lit "assistantId") fields = None
       ∨ ∃ s, getField (lit "assistantId") fields = Some (JStr s))
    ∧ (getField (lit "startedAt") fields = None
       ∨ ∃ q, getField (lit "startedAt") fields = Some (JNum q))
    ∧ (getField (lit "endedAt") fields = None
       ∨ ∃ q, getField (lit "endedAt") fields = Some (JNum q))
    ∧ (getField (lit "metadata") fields = None
       ∨ ∃ o, getField (lit "metadata") fields = Some (JObj o))
    ∧ getField (lit "transcript") fields = Some (JArr items)
    ∧ items ≠ []
    ∧ Forall (λ x, ∃ e r t q,
                x = JObj e
                ∧ getField (lit "role") e = Some (JStr r) ∧ r ≠ []
                ∧ getField (lit "text") e = Some (JStr t) ∧ t ≠ []
                ∧ getField (lit "timestamp") e = Some (JNum q)) items.
Proof.
  destruct body as [| | | | |fields];
    try (split; [done | by intros (? & ? & ? & _)]).
  rewrite TranscriptForward_success, !andb_true_iff.
  rewrite !optional_string_success, !optional_number_success,
    optional_record_success.
  split.
  - intros [[[[[Hc Ha] Hs] He] Ht] Hm].
    unfold prop, zArrayMin in Ht.
    destruct (getField (lit "transcript") fields) as [[| | | |items|]|] eqn:Hf;
      try done.
    rewrite success_parseMap, success_parseBoth, andb_true_iff in Ht.
    destruct Ht as [Hlen Hall].
    exists fields, items. repeat (split; [done|]). split.
    + intros ->. done.
    + apply Forall_lookup. intros i x Hx.
      rewrite success_parseAll_imap in Hall.
      by apply (ForwardedMessage_accepts ([] ++ [Key (lit "transcript")] ++ [Index i])),
               (Hall i x Hx).
  - intros (fields' & items & [= <-] & Hc & Ha & Hs & He & Hm & Ht & Hne & Hall).
    split; [|done]. split; [by repeat split|].
    unfold prop, zArrayMin. rewrite Ht.
    rewrite success_parseMap, success_parseBoth, andb_true_iff. split.
    + by destruct items.
    + apply success_parseAll_imap. intros i x Hx.
      apply ForwardedMessage_accepts.
      rewrite Forall_lookup in Hall. by apply (Hall i).
Qed.

